(** * Zeal: the bard melody sequencer (melody.cpp)

    A shallow embedding of [Melody::start], [Melody::end],
    [Melody::handle_stop_cast_callback], [Melody::stop_current_cast],
    [Melody::tick] and the [/melody] command handler, with the game client
    seen through a snapshot record of what its accessors report. *)

From Stdlib Require Import ZArith List String Bool Lia.
Import ListNotations.
Local Open Scope string_scope.
Local Open Scope list_scope.
Local Open Scope Z_scope.

(** ** Machine integers

    The client is a 32-bit x86 process: [int] and [size_t] are 32 bits wide,
    [ULONGLONG] is 64 bits wide.  Values are kept in [Z] and every operation
    that can leave the range is followed by its wrap-around.  Overflow of a
    signed [int] is undefined in C++; the embedding wraps there too, and the
    statements that depend on such a sum assume it stays in range. *)

Definition INT_MAX : Z := 2 ^ 31 - 1.
Definition INT_MIN : Z := - 2 ^ 31.

(** Conversion to [int] (two's complement). *)
Definition to_int (z : Z) : Z := (z + 2 ^ 31) mod 2 ^ 32 - 2 ^ 31.

(** Conversion to [size_t], as in the usual arithmetic conversions of a
    comparison between an [int] and [songs.size()]. *)
Definition to_size_t (z : Z) : Z := z mod 2 ^ 32.

(** Conversion to [ULONGLONG]. *)
Definition to_ulonglong (z : Z) : Z := z mod 2 ^ 64.

Definition in_int (z : Z) : Prop := INT_MIN <= z <= INT_MAX.

(** ** Constants and helpers declared outside melody.cpp

    [EQ_NUM_SPELL_GEMS], the [Stance] enumerators, [ClassTypes::Bard] and
    [Zeal::String::tryParse] come from headers that are not part of the two
    sources at hand; they are taken as parameters. *)

Class Externals : Type := {
  EQ_NUM_SPELL_GEMS : Z;
  Stance_Stand : Z;
  Stance_Sit : Z;
  ClassTypes_Bard : Z;
  tryParse : string -> option Z
}.

Definition RETRY_COUNT_REWIND_LIMIT : Z := 8.
Definition RETRY_COUNT_END_LIMIT : Z := 15.

(** ** The game client as seen by the melody code *)

Record EQCHARINFO : Type := {
  StunnedState : Z;
  MemorizedSpell : Z -> Z;     (* spell id per gem, -1 for an empty gem *)
  Class : Z
}.

Record EQACTORINFO : Type := {
  CastingSpellGemNumber : Z
}.

Record Entity : Type := {
  StandingState : Z;
  ActorInfo : option EQACTORINFO
}.

Record CastingWnd : Type := {
  IsVisible : bool
}.

(** One snapshot of the client, taken when an entry point runs.  A null
    pointer is [None]. *)
Record Game : Type := {
  is_in_game : bool;
  get_char_info : option EQCHARINFO;
  get_self : option Entity;
  Windows_Casting : option CastingWnd;
  get_eq : option bool;                  (* Some b: IsOkToTransact() = b *)
  get_spell_mgr : option (Z -> Z);       (* Spells[id]->TargetType *)
  get_target : bool;                     (* a target is selected *)
  GetTickCount64_first : Z;              (* the clock read by the static initialiser *)
  GetTickCount64 : Z                     (* the clock read for current_timestamp *)
}.

Inductive Color : Type :=
| USERCOLOR_SPELL_FAILURE
| USERCOLOR_SPELLS.

(** What an entry point asks of the client. *)
Inductive Effect : Type :=
| print_chat (color : Color) (format : string) (args : list Z)
| cast (gem : Z) (spell_id : Z)
| StopCast_original (spell_id : Z).

(** ** The Melody object

    The class declaration (melody.h) is not among the sources; the three
    members are typed as melody.cpp uses them: [songs] is assigned from a
    [std::vector<int>], [current_index] is assigned -1 and tested against 0,
    [retry_count] is compared with the [int] limits. *)

Record Melody : Type := {
  songs : list Z;          (* gem indices, base 0 *)
  current_index : Z;       (* int *)
  retry_count : Z          (* int *)
}.

(** The two function-local statics of [tick].  They are threaded through
    [tick] as an [option], [None] until the declaration has been executed
    once. *)
Record TickStatics : Type := {
  casting_visible_timestamp : Z;
  start_of_cast_timestamp : Z
}.

(** [songs.size()].  On the 32-bit target a [std::vector<int>] holds fewer
    than [INT_MAX] elements; statements that convert the size to [int] carry
    that bound as a hypothesis. *)
Definition size (m : Melody) : Z := Z.of_nat (List.length (songs m)).

Definition truthy (z : Z) : bool := negb (z =? 0).

(** [current_index++] followed by the wrap of lines 176-178 of melody.cpp. *)
Definition advanced_index (m : Melody) : Z :=
  let incremented := to_int (current_index m + 1) in
  if (to_size_t incremented >=? size m) || (incremented <? 0) then 0 else incremented.

(** [current_index--] followed by the wrap of lines 113-116 of melody.cpp. *)
Definition rewound_index (m : Melody) : Z :=
  let decremented := to_int (current_index m - 1) in
  if decremented <? 0 then to_int (to_size_t (size m - 1)) else decremented.

(** The statics [tick] works with: their stored values, or the clock on the
    first execution of their declaration. *)
Definition statics_in_use (g : Game) (st : option TickStatics) : TickStatics :=
  match st with
  | Some s => s
  | None => {| casting_visible_timestamp := GetTickCount64_first g;
               start_of_cast_timestamp := GetTickCount64_first g |}
  end.

(** [!Windows->Casting || Windows->Casting->IsVisible]. *)
Definition casting_window_up (g : Game) : bool :=
  match Windows_Casting g with
  | None => true
  | Some w => IsVisible w
  end.

Section Model.
Context {X : Externals}.

(** The loop of [start] over [new_songs]: the first offending gem stops it
    with its message. *)
Fixpoint check_gems (char_info : EQCHARINFO) (new_songs : list Z) : option Effect :=
  match new_songs with
  | [] => None
  | gem_index :: rest =>
      if (gem_index <? 0) || (gem_index >=? EQ_NUM_SPELL_GEMS) then
        Some (print_chat USERCOLOR_SPELL_FAILURE "Error: Invalid spell gem %i"
                [to_int (gem_index + 1)])
      else if MemorizedSpell char_info gem_index =? -1 then
        Some (print_chat USERCOLOR_SPELL_FAILURE "Error: spell gem %i is empty"
                [to_int (gem_index + 1)])
      else check_gems char_info rest
  end.

Definition start (g : Game) (new_songs : list Z) (m : Melody)
  : bool * Melody * list Effect :=
  if negb (is_in_game g) then (false, m, [])
  else
    match get_char_info g with
    | None =>
        (false, m, [print_chat USERCOLOR_SPELL_FAILURE "Can not start melody while stunned." []])
    | Some char_info =>
        if truthy (StunnedState char_info) then
          (false, m, [print_chat USERCOLOR_SPELL_FAILURE "Can not start melody while stunned." []])
        else
          match get_self g with
          | None =>
              (false, m, [print_chat USERCOLOR_SPELL_FAILURE "Can only start melody when standing." []])
          | Some self =>
              if negb (StandingState self =? Stance_Stand) then
                (false, m, [print_chat USERCOLOR_SPELL_FAILURE "Can only start melody when standing." []])
              else
                match check_gems char_info new_songs with
                | Some complaint => (false, m, [complaint])
                | None =>
                    (true,
                     {| songs := new_songs; current_index := -1; retry_count := 0 |},
                     match new_songs with
                     | [] => []
                     | _ :: _ => [print_chat USERCOLOR_SPELLS "You begin playing a melody." []]
                     end)
                end
          end
    end.

Definition end_ (m : Melody) : Melody * list Effect :=
  match songs m with
  | [] => (m, [])
  | _ :: _ =>
      ({| songs := []; current_index := -1; retry_count := 0 |},
       [print_chat USERCOLOR_SPELL_FAILURE "Your melody has ended." []])
  end.

Definition handle_stop_cast_callback (reason : Z) (m : Melody) : Melody * list Effect :=
  if negb (reason =? 3) || (size m =? 0) then end_ m
  else if current_index m >=? 0 then
    (* the right operand of && runs, so retry_count is pre-incremented *)
    let retry_count' := to_int (retry_count m + 1) in
    if truthy (Z.rem retry_count' RETRY_COUNT_REWIND_LIMIT) then
      ({| songs := songs m; current_index := rewound_index m; retry_count := retry_count' |}, [])
    else
      ({| songs := songs m; current_index := current_index m; retry_count := retry_count' |}, [])
  else (m, []).

Definition stop_current_cast (g : Game) (m : Melody) : list Effect :=
  match get_char_info g with
  | Some char_info =>
      if (current_index m >=? 0) && (to_size_t (current_index m) <? size m) then
        [StopCast_original
           (MemorizedSpell char_info (nth (Z.to_nat (current_index m)) (songs m) 0))]
      else []
  | None => []
  end.

(** The conditions of the first test of [tick]; [Some] carries the two
    pointers, known non-null from there on. *)
Definition tick_keeps_going (g : Game) (m : Melody) : option (Entity * EQCHARINFO) :=
  if negb (is_in_game g) then None
  else
    match get_self g, get_char_info g with
    | Some self, Some char_info =>
        if (StandingState self =? Stance_Sit)
           || truthy (StunnedState char_info)
           || (retry_count m >? RETRY_COUNT_END_LIMIT)
        then None
        else Some (self, char_info)
    | _, _ => None
    end.

Definition tick (g : Game) (st : option TickStatics) (m : Melody)
  : Melody * option TickStatics * list Effect :=
  if size m =? 0 then (m, st, [])
  else
    match tick_keeps_going g m with
    | None => let (m', out) := end_ m in (m', st, out)
    | Some (self, char_info) =>
        let st0 := statics_in_use g st in
        let current_timestamp := GetTickCount64 g in
        if casting_window_up g then
          let st1 := {| casting_visible_timestamp := current_timestamp;
                        start_of_cast_timestamp := start_of_cast_timestamp st0 |} in
          if to_ulonglong (casting_visible_timestamp st1 - start_of_cast_timestamp st1) >? 1000
          then ({| songs := songs m; current_index := current_index m; retry_count := 0 |},
                Some st1, [])
          else (m, Some st1, [])
        else if to_ulonglong (current_timestamp - casting_visible_timestamp st0) <? 150 then
          (m, Some st0, [])
        else if match get_eq g with None => true | Some ok => negb ok end
                || negb (StandingState self =? Stance_Stand) then
          (m, Some st0, [])
        else
          let aborted :=
            match ActorInfo self with
            | Some a => if CastingSpellGemNumber a =? 255 then stop_current_cast g m else []
            | None => []
            end in
          let current_index' := advanced_index m in
          let current_gem := nth (Z.to_nat current_index') (songs m) 0 in
          if MemorizedSpell char_info current_gem =? -1 then
            ({| songs := songs m; current_index := current_index';
                retry_count := retry_count m |}, Some st0, aborted)
          else if match get_spell_mgr g with
                  | Some TargetType =>
                      (TargetType (MemorizedSpell char_info current_gem) =? 5)
                      && negb (get_target g)
                  | None => false
                  end then
            ({| songs := songs m; current_index := current_index';
                retry_count := to_int (retry_count m + 1) |}, Some st0,
             aborted ++ [print_chat USERCOLOR_SPELL_FAILURE
                           "You must first select a target for spell %i"
                           [to_int (current_gem + 1)]])
          else
            ({| songs := songs m; current_index := current_index';
                retry_count := retry_count m |},
             Some {| casting_visible_timestamp := casting_visible_timestamp st0;
                     start_of_cast_timestamp := current_timestamp |},
             aborted ++ [cast current_gem (MemorizedSpell char_info current_gem)])
    end.

(** The parsing loop of the [/melody] handler over [args[1..]].  [tryParse]
    stores what it reads in the [int] [current_gem], and [current_gem - 1]
    is an [int] too. *)
Fixpoint parse_songs (rest : list string) (new_songs : list Z) : option (list Z) :=
  match rest with
  | [] => Some new_songs
  | a :: rest' =>
      match tryParse a with
      | Some parsed =>
          let current_gem := to_int parsed in
          parse_songs rest' (new_songs ++ [to_int (current_gem - 1)])
      | None => None
      end
  end.

(** The lambda registered for [/melody]; it always returns [true], so only
    the state and the messages are kept. *)
Definition melody_command (g : Game) (args : list string) (m : Melody)
  : Melody * list Effect :=
  let (m1, out1) := end_ m in
  if match get_char_info g with
     | None => true
     | Some char_info => negb (Class char_info =? ClassTypes_Bard)
     end then
    (m1, out1 ++ [print_chat USERCOLOR_SPELL_FAILURE "Only bards can keep a melody." []])
  else if Z.of_nat (List.length args) >? 10 then
    (m1, out1 ++ [print_chat USERCOLOR_SPELL_FAILURE
                    "A melody can only consist of up to 5 songs." []])
  else
    match parse_songs (tl args) [] with
    | None =>
        (m1, out1 ++ [print_chat USERCOLOR_SPELL_FAILURE
                        "Melody parsing error: Usage example: /melody 1 2 3 4" []])
    | Some new_songs =>
        let '(_, m2, out2) := start g new_songs m1 in (m2, out1 ++ out2)
    end.

End Model.

(** ** Which return of [tick] is taken *)

Inductive TickPath : Type :=
| path_idle               (* songs is empty *)
| path_hard_termination   (* the end() branch *)
| path_debounce           (* casting window up *)
| path_cooldown           (* less than 150 ms after the window went away *)
| path_busy               (* not ok to transact, or not standing *)
| path_empty_slot         (* the gem of the new index is empty *)
| path_no_target          (* single-target spell without a target *)
| path_execute.           (* the spell is cast *)

Section Paths.
Context {X : Externals}.

Definition tick_path (g : Game) (st : option TickStatics) (m : Melody) : TickPath :=
  if size m =? 0 then path_idle
  else
    match tick_keeps_going g m with
    | None => path_hard_termination
    | Some (self, char_info) =>
        if casting_window_up g then path_debounce
        else if to_ulonglong (GetTickCount64 g
                              - casting_visible_timestamp (statics_in_use g st)) <? 150
        then path_cooldown
        else if match get_eq g with None => true | Some ok => negb ok end
                || negb (StandingState self =? Stance_Stand)
        then path_busy
        else
          let current_gem := nth (Z.to_nat (advanced_index m)) (songs m) 0 in
          if MemorizedSpell char_info current_gem =? -1 then path_empty_slot
          else if match get_spell_mgr g with
                  | Some TargetType =>
                      (TargetType (MemorizedSpell char_info current_gem) =? 5)
                      && negb (get_target g)
                  | None => false
                  end
          then path_no_target
          else path_execute
    end.

Definition advancing (p : TickPath) : bool :=
  match p with
  | path_empty_slot | path_no_target | path_execute => true
  | _ => false
  end.

(** The entry points the client drives once a run exists. *)
Inductive Event : Type :=
| ev_tick (g : Game)
| ev_stop_cast (reason : Z).

Definition step (e : Event) (c : Melody * option TickStatics)
  : Melody * option TickStatics :=
  match e with
  | ev_tick g => fst (tick g (snd c) (fst c))
  | ev_stop_cast reason => (fst (handle_stop_cast_callback reason (fst c)), snd c)
  end.

Fixpoint run (es : list Event) (c : Melody * option TickStatics)
  : Melody * option TickStatics :=
  match es with
  | [] => c
  | e :: es' => run es' (step e c)
  end.

(** [n] stop notifications with the missed-note reason, nothing in between. *)
Fixpoint interrupted (n : nat) (m : Melody) : Melody :=
  match n with
  | O => m
  | S n' => interrupted n' (fst (handle_stop_cast_callback 3 m))
  end.

(** What makes [start] decline, in the order it tests. *)
Definition start_precondition_fails (g : Game) (new_songs : list Z) : Prop :=
  is_in_game g = false
  \/ get_char_info g = None
  \/ (exists char_info, get_char_info g = Some char_info /\ StunnedState char_info <> 0)
  \/ get_self g = None
  \/ (exists self, get_self g = Some self /\ StandingState self <> Stance_Stand)
  \/ (exists char_info gem_index,
        get_char_info g = Some char_info /\ In gem_index new_songs
        /\ (gem_index < 0 \/ gem_index >= EQ_NUM_SPELL_GEMS
            \/ MemorizedSpell char_info gem_index = -1)).

End Paths.

(** ** Predicates used in the statements *)

(** The effects are all calls of the client's own StopCast. *)
Definition only_stops (out : list Effect) : Prop :=
  forall e, In e out -> exists spell_id, e = StopCast_original spell_id.

(** No spell is cast among the effects. *)
Definition never_casts (out : list Effect) : Prop :=
  forall gem spell_id, ~ In (cast gem spell_id) out.

(** What [stop_current_cast] stops: nothing, or the spell memorised in the
    gem of the song at [current_index]. *)
Definition stops_the_current_song (g : Game) (m : Melody) (aborted : list Effect) : Prop :=
  aborted = []
  \/ exists char_info,
       get_char_info g = Some char_info
       /\ 0 <= current_index m /\ to_size_t (current_index m) < size m
       /\ aborted =
            [StopCast_original
               (MemorizedSpell char_info
                  (nth (Z.to_nat (current_index m)) (songs m) 0))].

(** [current_index] is inside the list [l] of the run, or the run is over. *)
Definition in_range_or_ended (l : list Z) (m : Melody) : Prop :=
  (songs m = l /\ 0 <= current_index m < size m)
  \/ (songs m = [] /\ current_index m = -1).

(** ** Sample client used by the worked examples

    Eight gems, the stance and class codes of the classic client, and a
    decimal reader standing in for [tryParse]. *)

Definition digit_of (c : Ascii.ascii) : option Z :=
  let n := Z.of_nat (Ascii.nat_of_ascii c) in
  if (48 <=? n) && (n <=? 57) then Some (n - 48) else None.

Fixpoint read_digits (s : string) (acc : Z) : option Z :=
  match s with
  | EmptyString => Some acc
  | String c s' =>
      match digit_of c with
      | Some d => read_digits s' (10 * acc + d)
      | None => None
      end
  end.

Definition read_decimal (s : string) : option Z :=
  match s with
  | EmptyString => None
  | _ => read_digits s 0
  end.

Definition classic : Externals :=
  {| EQ_NUM_SPELL_GEMS := 8;
     Stance_Stand := 100;
     Stance_Sit := 110;
     ClassTypes_Bard := 8;
     tryParse := read_decimal |}.

(** A standing bard with every gem memorised (gem [i] holds spell [700 + i]),
    no casting window showing, nothing targeted, no spell needing a target. *)
Definition bard : EQCHARINFO :=
  {| StunnedState := 0;
     MemorizedSpell := fun gem => if (0 <=? gem) && (gem <? 8) then 700 + gem else -1;
     Class := 8 |}.

Definition bard_game (now : Z) : Game :=
  {| is_in_game := true;
     get_char_info := Some bard;
     get_self := Some {| StandingState := 100; ActorInfo := None |};
     Windows_Casting := Some {| IsVisible := false |};
     get_eq := Some true;
     get_spell_mgr := Some (fun _ => 0);
     get_target := false;
     GetTickCount64_first := now;
     GetTickCount64 := now |}.

(** The same bard while the casting window is showing. *)
Definition bard_game_casting (now : Z) : Game :=
  {| is_in_game := true;
     get_char_info := Some bard;
     get_self := Some {| StandingState := 100; ActorInfo := None |};
     Windows_Casting := Some {| IsVisible := true |};
     get_eq := Some true;
     get_spell_mgr := Some (fun _ => 0);
     get_target := false;
     GetTickCount64_first := now;
     GetTickCount64 := now |}.

Definition idle : Melody := {| songs := []; current_index := -1; retry_count := 0 |}.

(** A client built from its parts, for the examples that need another
    stance, an open trade, a spell that wants a target, or empty gems. *)
Definition sample_game (char_info : EQCHARINFO) (stance : Z) (window_visible : bool)
  (ok_to_transact : bool) (target_type : Z) (now : Z) : Game :=
  {| is_in_game := true;
     get_char_info := Some char_info;
     get_self := Some {| StandingState := stance; ActorInfo := None |};
     Windows_Casting := Some {| IsVisible := window_visible |};
     get_eq := Some ok_to_transact;
     get_spell_mgr := Some (fun _ => target_type);
     get_target := false;
     GetTickCount64_first := now;
     GetTickCount64 := now |}.

(** The bard after every gem has been emptied. *)
Definition bard_without_songs : EQCHARINFO :=
  {| StunnedState := 0; MemorizedSpell := fun _ => -1; Class := 8 |}.

(** ** Runs of ticks *)

Section TickRuns.
Context {X : Externals}.

(** One call of [tick] per snapshot, in order. *)
Fixpoint ticks (gs : list Game) (c : Melody * option TickStatics)
  : Melody * option TickStatics :=
  match gs with
  | [] => c
  | g :: gs' => ticks gs' (fst (tick g (snd c) (fst c)))
  end.

(** Every tick of the run takes a path accepted by [p]. *)
Fixpoint every_tick (p : TickPath -> bool) (gs : list Game)
  (c : Melody * option TickStatics) : Prop :=
  match gs with
  | [] => True
  | g :: gs' =>
      p (tick_path g (snd c) (fst c)) = true
      /\ every_tick p gs' (fst (tick g (snd c) (fst c)))
  end.

Definition is_no_target (p : TickPath) : bool :=
  match p with path_no_target => true | _ => false end.

Definition is_empty_slot (p : TickPath) : bool :=
  match p with path_empty_slot => true | _ => false end.

(** The first test of [tick], spelled out. *)
Definition must_end (g : Game) (m : Melody) : Prop :=
  is_in_game g = false
  \/ get_self g = None
  \/ get_char_info g = None
  \/ (exists self, get_self g = Some self /\ StandingState self = Stance_Sit)
  \/ (exists char_info, get_char_info g = Some char_info /\ StunnedState char_info <> 0)
  \/ retry_count m > RETRY_COUNT_END_LIMIT.

End TickRuns.

(** How many of the [n] notifications that follow a count of [rc] bring the
    count to a multiple of 8, and so do not rewind. *)
Definition skipped_rewinds (rc : Z) (n : nat) : Z := (rc + Z.of_nat n) / 8 - rc / 8.

(** * Key binds (binds.cpp)

    The class declaration (binds.h) is not among the sources.  The two maps
    are read as maps from the command number, [last_targets] as a pair of
    integers, both as binds.cpp uses them. *)

Module Binds.

(** The field of [Zeal::EqStructures::Entity] that binds.cpp reads. *)
Record Entity : Type := {
  SpawnId : Z
}.

(** *** [last_targets] *)

Definition main_loop (get_target : option Entity) (last_targets : Z * Z) : Z * Z :=
  match get_target with
  | Some target =>
      if negb (SpawnId target =? fst last_targets)
      then (SpawnId target, fst last_targets)
      else last_targets
  | None => last_targets
  end.

Definition on_zone (last_targets : Z * Z) : Z * Z := (0, 0).

(** The callback of bind 216, "Toggle last two targets": the entity handed
    to [set_target], if it is called. *)
Definition toggle_last_two (key_down : bool) (UI_ChatInputCheck : bool)
  (get_target : option Entity) (get_entity_by_id : Z -> option Entity)
  (last_targets : Z * Z) : option Entity :=
  if key_down && negb UI_ChatInputCheck then
    match get_target with
    | Some target =>
        if (fst last_targets =? SpawnId target) && negb (snd last_targets =? 0)
        then get_entity_by_id (snd last_targets)
        else None
    | None =>
        if negb (fst last_targets =? 0)
        then get_entity_by_id (fst last_targets)
        else None
    end
  else None.

(** What the main loop, a zone change and the toggle key do to the pair and
    to the client's target; [set_target] makes its argument the target. *)
Inductive TargetEvent : Type :=
| te_main_loop
| te_on_zone
| te_toggle_key
| te_select (target : option Entity).   (* the player picks or drops a target *)

Definition target_step (get_entity_by_id : Z -> option Entity) (e : TargetEvent)
  (s : option Entity * (Z * Z)) : option Entity * (Z * Z) :=
  match e with
  | te_main_loop => (fst s, main_loop (fst s) (snd s))
  | te_on_zone => (fst s, on_zone (snd s))
  | te_toggle_key =>
      match toggle_last_two true false (fst s) get_entity_by_id (snd s) with
      | Some ent => (Some ent, snd s)
      | None => s
      end
  | te_select target => (target, snd s)
  end.

Fixpoint target_run (get_entity_by_id : Z -> option Entity) (es : list TargetEvent)
  (s : option Entity * (Z * Z)) : option Entity * (Z * Z) :=
  match es with
  | [] => s
  | e :: es' => target_run get_entity_by_id es' (target_step get_entity_by_id e s)
  end.

(** *** Dispatch of a command *)

Section Dispatch.
Variable W : Type.    (* whatever the callbacks act on *)

Definition Replacement : Type := bool -> W -> bool * W.
Definition KeyMapFunction : Type := bool -> W -> W.

Record Hook : Type := {
  ReplacementFunctions : Z -> option (list Replacement);
  KeyMapFunctions : Z -> option KeyMapFunction
}.

(** The loop over [ReplacementFunctions[cmd]]: it stops at the first
    function that returns true. *)
Fixpoint run_replacements (fns : list Replacement) (isdown : bool) (w : W) : bool * W :=
  match fns with
  | [] => (false, w)
  | fn :: rest =>
      let (handled, w') := fn isdown w in
      if handled then (true, w') else run_replacements rest isdown w'
  end.

Definition execute_cmd (h : Hook) (game_wants_input : bool) (cmd : Z) (isdown : bool)
  (w : W) : bool * W :=
  if negb game_wants_input || negb isdown then
    let (handled, w1) :=
      match ReplacementFunctions h cmd with
      | Some fns => run_replacements fns isdown w
      | None => (false, w)
      end in
    if handled then (true, w1)
    else
      match KeyMapFunctions h cmd with
      | Some fn => (false, fn isdown w1)
      | None => (false, w1)
      end
  else (false, w).

(** [ReplacementFunctions[cmd].push_back(callback)]: [operator[]] creates the
    empty vector of a new key. *)
Definition replace_cmd (cmd : Z) (callback : Replacement) (h : Hook) : Hook :=
  {| ReplacementFunctions :=
       fun k =>
         if k =? cmd then
           Some (match ReplacementFunctions h cmd with
                 | Some fns => fns
                 | None => []
                 end ++ [callback])
         else ReplacementFunctions h k;
     KeyMapFunctions := KeyMapFunctions h |}.

(** What [add_bind] writes into the client. *)
Inductive BindWrite : Type :=
| InitKeyBindStr (address : Z) (name : string)
| write_category (address : Z) (category : Z).

(** [add_bind], for [cmd] inside [KeyMapNames]: the short name is stored in
    any case; without the options pointer the function returns before the
    callback is stored.  [None] is the constraint violation of [strcpy_s] on
    a short name that does not fit 64 bytes with its terminator. *)
Definition add_bind (ptr_binds : Z) (cmd : Z) (name short_name : string) (category : Z)
  (callback : KeyMapFunction) (s : (Z -> option string) * Hook)
  : option ((Z -> option string) * Hook * list BindWrite) :=
  if Z.of_nat (String.length short_name) >=? 64 then None
  else
    let KeyMapNames := fun k => if k =? cmd then Some short_name else fst s k in
    if ptr_binds =? 0 then Some (KeyMapNames, snd s, [])
    else
      Some (KeyMapNames,
            {| ReplacementFunctions := ReplacementFunctions (snd s);
               KeyMapFunctions :=
                 fun k => if k =? cmd then Some callback else KeyMapFunctions (snd s) k |},
            [InitKeyBindStr (to_int (ptr_binds + cmd * 8 + 524)) name;
             write_category (to_int (ptr_binds + cmd * 8 + 528)) category]).

End Dispatch.

Arguments ReplacementFunctions {W} _ _.
Arguments KeyMapFunctions {W} _ _.
Arguments run_replacements {W} _ _ _.
Arguments execute_cmd {W} _ _ _ _ _.
Arguments replace_cmd {W} _ _ _.
Arguments add_bind {W} _ _ _ _ _ _ _.

(** *** [read_ini] *)

(** The body of the loop of [read_ini] at index [i]; [ini i key_type] is
    what the client's reader returns, a [UINT32]. *)
Definition read_ini_at (KeyMapNames : Z -> option string) (ini : Z -> Z -> Z) (i : Z)
  (maps : (Z -> Z) * (Z -> Z)) : (Z -> Z) * (Z -> Z) :=
  match KeyMapNames i with
  | Some _ =>
      let keycode := to_int (ini i 0) in
      let keycode_alt := to_int (ini i 1) in
      let primary :=
        if negb (keycode =? -2) then fun k => if k =? i then keycode else fst maps k
        else fst maps in
      let alternate :=
        if negb (keycode_alt =? -2)
        then fun k => if k =? i then keycode_alt else snd maps k
        else snd maps in
      (primary, alternate)
  | None => maps
  end.

Fixpoint read_ini_loop (count : nat) (i : Z) (KeyMapNames : Z -> option string)
  (ini : Z -> Z -> Z) (maps : (Z -> Z) * (Z -> Z)) : (Z -> Z) * (Z -> Z) :=
  match count with
  | O => maps
  | S count' =>
      read_ini_loop count' (i + 1) KeyMapNames ini (read_ini_at KeyMapNames ini i maps)
  end.

(** [size] is the number of elements of [KeyMapNames]. *)
Definition read_ini (size : Z) (KeyMapNames : Z -> option string) (ini : Z -> Z -> Z)
  (maps : (Z -> Z) * (Z -> Z)) : (Z -> Z) * (Z -> Z) :=
  read_ini_loop (Z.to_nat (size - 128)) 128 KeyMapNames ini maps.

(** *** Bind 215, "Toggle all containers" *)

Record EQITEMINFO : Type := {
  Type_ : Z;
  Container_Capacity : Z;
  Container_IsOpen : Z
}.

Inductive ContainerCall : Type :=
| CloseAllContainers
| OpenContainer (c : EQITEMINFO) (slot : Z).

(** The first loop of the callback, over the pack slots [slots]. *)
Fixpoint pack_containers (slots : list Z) (InventoryPackItem : Z -> option EQITEMINFO)
  : list (EQITEMINFO * Z) :=
  match slots with
  | [] => []
  | i :: rest =>
      match InventoryPackItem i with
      | Some item =>
          if (Type_ item =? 1) && (Container_Capacity item >? 0)
          then (item, i) :: pack_containers rest InventoryPackItem
          else pack_containers rest InventoryPackItem
      | None => pack_containers rest InventoryPackItem
      end
  end.

(** The callback of bind 215.  It reads [get_self()->CharInfo] without a
    test; the embedding starts from the pack array reached that way, and
    takes the open flags as they are when the key is pressed (opening one
    container is taken not to change the flag of another). *)
Definition toggle_all_containers (key_down : bool) (UI_ChatInputCheck : bool)
  (InventoryPackItem : Z -> option EQITEMINFO) : list ContainerCall :=
  if key_down && negb UI_ChatInputCheck then
    let containers := pack_containers [0; 1; 2; 3; 4; 5; 6; 7] InventoryPackItem in
    let opened_containers :=
      filter (fun ci => truthy (Container_IsOpen (fst ci))) containers in
    if Z.of_nat (List.length opened_containers) =? Z.of_nat (List.length containers) then
      [CloseAllContainers]
    else
      map (fun ci => OpenContainer (fst ci) (22 + snd ci))
          (filter (fun ci => negb (truthy (Container_IsOpen (fst ci)))) containers)
  else [].

(** *** Binds 224 to 228, "Slow Turn Left" *)

Definition turn_speed_address : Z := 5502808.       (* 0x53f758 *)
Definition turn_speed_address_2 : Z := 5502814.     (* 0x53f75E *)

Definition write_byte (address : Z) (value : Z) (mem : Z -> Z) : Z -> Z :=
  fun a => if a =? address then value mod 256 else mem a.

(** The callback shared by binds 224 (speed 3) to 228 (speed 7).
    [game_execute_cmd] is what the client's own [execute_cmd(6, key_down, 0)]
    does to the memory. *)
Definition slow_turn_left (speed : Z) (game_execute_cmd : bool -> (Z -> Z) -> (Z -> Z))
  (key_down : bool) (UI_ChatInputCheck : bool) (mem : Z -> Z) : Z -> Z :=
  if negb UI_ChatInputCheck then
    let mem1 := game_execute_cmd key_down mem in
    if key_down then
      write_byte turn_speed_address_2 speed (write_byte turn_speed_address speed mem1)
    else if negb (mem1 turn_speed_address =? 12) then
      write_byte turn_speed_address_2 12 (write_byte turn_speed_address 12 mem1)
    else mem1
  else mem.

End Binds.

(** ** Arithmetic of the conversions *)

Lemma to_int_id (z : Z) : in_int z -> to_int z = z.
Proof.
  unfold in_int, INT_MIN, INT_MAX, to_int. intros H.
  rewrite Z.mod_small; lia.
Qed.

Lemma to_int_in_int (z : Z) : in_int (to_int z).
Proof.
  unfold in_int, INT_MIN, INT_MAX, to_int.
  pose proof (Z.mod_pos_bound (z + 2 ^ 31) (2 ^ 32) ltac:(lia)). lia.
Qed.

Lemma to_size_t_id (z : Z) : 0 <= z < 2 ^ 32 -> to_size_t z = z.
Proof. intros H. unfold to_size_t. apply Z.mod_small. exact H. Qed.

Lemma size_nonneg (m : Melody) : 0 <= size m.
Proof. unfold size. lia. Qed.

Lemma size_zero_iff (m : Melody) : size m = 0 <-> songs m = [].
Proof.
  unfold size. destruct (songs m) as [|x l]; simpl; split; intros H;
    try reflexivity; try discriminate; lia.
Qed.

Lemma size_eqb_nil (m : Melody) : songs m = [] -> (size m =? 0) = true.
Proof. intros H. apply Z.eqb_eq. apply size_zero_iff. exact H. Qed.

Lemma size_eqb_cons (m : Melody) : songs m <> [] -> (size m =? 0) = false.
Proof. intros H. apply Z.eqb_neq. intros E. apply H. apply size_zero_iff. exact E. Qed.

(** The advance of [tick] lands inside the list whatever the index was. *)
Lemma advanced_index_in_range (m : Melody) :
  0 < size m -> 0 <= advanced_index m < size m.
Proof.
  intros Hs. unfold advanced_index.
  pose proof (to_int_in_int (current_index m + 1)) as Hr.
  set (i := to_int (current_index m + 1)) in *.
  destruct ((to_size_t i >=? size m) || (i <? 0)) eqn:E; [lia|].
  apply orb_false_iff in E. destruct E as [E1 E2].
  apply Z.ltb_ge in E2.
  unfold in_int, INT_MIN, INT_MAX in Hr.
  rewrite to_size_t_id in E1 by lia.
  rewrite Z.geb_leb in E1. apply Z.leb_gt in E1. lia.
Qed.

(** The advance, read over the integers: increment, and back to 0 when the
    result reaches or exceeds the length or is negative. *)
Lemma advanced_index_spec (m : Melody) :
  in_int (current_index m) -> size m <= INT_MAX ->
  advanced_index m =
    if (current_index m + 1 >=? size m) || (current_index m + 1 <? 0) then 0
    else current_index m + 1.
Proof.
  unfold in_int, INT_MIN, INT_MAX. intros Hc Hs. unfold advanced_index.
  destruct (Z.eq_dec (current_index m) (2 ^ 31 - 1)) as [Emax|Nmax].
  - rewrite Emax. replace (to_int (2 ^ 31 - 1 + 1)) with (- 2 ^ 31) by reflexivity.
    replace (- 2 ^ 31 <? 0) with true by reflexivity. rewrite orb_true_r.
    replace (2 ^ 31 - 1 + 1 >=? size m) with true; [reflexivity|].
    symmetry. rewrite Z.geb_leb. apply Z.leb_le. lia.
  - rewrite to_int_id by (unfold in_int, INT_MIN, INT_MAX; lia).
    destruct (current_index m + 1 <? 0) eqn:Eneg.
    + rewrite !orb_true_r. reflexivity.
    + apply Z.ltb_ge in Eneg. rewrite to_size_t_id by lia. reflexivity.
Qed.

(** The rewind, read over the integers: decrement, and to the last position
    when the result is negative. *)
Lemma rewound_index_spec (m : Melody) :
  0 <= current_index m <= INT_MAX -> 0 < size m <= INT_MAX ->
  rewound_index m =
    if current_index m - 1 <? 0 then size m - 1 else current_index m - 1.
Proof.
  unfold INT_MAX. intros Hc Hs. unfold rewound_index.
  rewrite (to_int_id (current_index m - 1))
    by (unfold in_int, INT_MIN, INT_MAX; lia).
  destruct (current_index m - 1 <? 0); [|reflexivity].
  rewrite to_size_t_id by lia.
  apply to_int_id. unfold in_int, INT_MIN, INT_MAX. lia.
Qed.

Lemma rewound_index_in_range (m : Melody) :
  0 <= current_index m < size m -> size m <= INT_MAX ->
  0 <= rewound_index m < size m.
Proof.
  intros Hc Hs. rewrite rewound_index_spec by lia.
  destruct (current_index m - 1 <? 0) eqn:E.
  - lia.
  - apply Z.ltb_ge in E. lia.
Qed.

(** Rewinding and then advancing comes back to the same position. *)
Lemma advance_after_rewind (m : Melody) (rc : Z) :
  0 <= current_index m < size m -> size m <= INT_MAX ->
  advanced_index {| songs := songs m; current_index := rewound_index m;
                    retry_count := rc |} = current_index m.
Proof.
  intros Hc Hs.
  pose proof (rewound_index_in_range m Hc Hs) as Hr.
  pose proof (rewound_index_spec m ltac:(lia) ltac:(lia)) as Hw.
  set (m' := {| songs := songs m; current_index := rewound_index m;
                retry_count := rc |}).
  assert (Hsz : size m' = size m) by reflexivity.
  assert (Hci : current_index m' = rewound_index m) by reflexivity.
  rewrite advanced_index_spec; rewrite ?Hsz, ?Hci.
  - destruct (current_index m - 1 <? 0) eqn:E; rewrite Hw.
    + apply Z.ltb_lt in E.
      replace (size m - 1 + 1 >=? size m) with true
        by (symmetry; rewrite Z.geb_leb; apply Z.leb_le; lia).
      simpl. lia.
    + apply Z.ltb_ge in E.
      replace (current_index m - 1 + 1 >=? size m) with false
        by (symmetry; rewrite Z.geb_leb; apply Z.leb_gt; lia).
      replace (current_index m - 1 + 1 <? 0) with false
        by (symmetry; apply Z.ltb_ge; lia).
      simpl. lia.
  - unfold in_int, INT_MIN, INT_MAX in *. lia.
  - exact Hs.
Qed.

(** ** [end] and the stop notification *)

Lemma end_running (m : Melody) :
  songs m <> [] ->
  end_ m = ({| songs := []; current_index := -1; retry_count := 0 |},
            [print_chat USERCOLOR_SPELL_FAILURE "Your melody has ended." []]).
Proof. unfold end_. destruct (songs m); [congruence|reflexivity]. Qed.

Lemma end_idle (m : Melody) : songs m = [] -> end_ m = (m, []).
Proof. unfold end_. intros ->. reflexivity. Qed.

Lemma end_songs (m : Melody) : songs (fst (end_ m)) = [].
Proof. unfold end_. destruct (songs m) eqn:E; simpl; [exact E|reflexivity]. Qed.

Lemma only_stops_never_casts (out : list Effect) : only_stops out -> never_casts out.
Proof.
  intros H gem id Hin. destruct (H _ Hin) as [s Hs]. discriminate Hs.
Qed.

Section TickPaths.
Context {X : Externals}.

Lemma stop_current_cast_only_stops (g : Game) (m : Melody) :
  only_stops (stop_current_cast g m).
Proof.
  unfold stop_current_cast, only_stops. intros e.
  destruct (get_char_info g) as [c|]; [|intros []].
  destruct ((current_index m >=? 0) && (to_size_t (current_index m) <? size m));
    [|intros []].
  intros [<-|[]]. eexists. reflexivity.
Qed.

(** What [tick] returns on each of its paths. *)
Lemma tick_by_path (g : Game) (st : option TickStatics) (m : Melody) :
  let '(m', st', out) := tick g st m in
  match tick_path g st m with
  | path_idle => songs m = [] /\ m' = m /\ st' = st /\ out = []
  | path_hard_termination =>
      songs m <> [] /\ tick_keeps_going g m = None
      /\ (m', out) = end_ m /\ st' = st
  | path_debounce =>
      songs m <> [] /\ tick_keeps_going g m <> None
      /\ casting_window_up g = true
      /\ songs m' = songs m /\ current_index m' = current_index m
      /\ retry_count m' =
           (if to_ulonglong (GetTickCount64 g
                             - start_of_cast_timestamp (statics_in_use g st)) >? 1000
            then 0 else retry_count m)
      /\ out = []
  | path_cooldown | path_busy =>
      songs m <> [] /\ tick_keeps_going g m <> None
      /\ casting_window_up g = false
      /\ m' = m /\ st' = Some (statics_in_use g st) /\ out = []
  | path_empty_slot =>
      songs m <> [] /\ tick_keeps_going g m <> None
      /\ casting_window_up g = false
      /\ songs m' = songs m /\ current_index m' = advanced_index m
      /\ retry_count m' = retry_count m
      /\ only_stops out
  | path_no_target =>
      songs m <> [] /\ tick_keeps_going g m <> None
      /\ casting_window_up g = false
      /\ songs m' = songs m /\ current_index m' = advanced_index m
      /\ retry_count m' = to_int (retry_count m + 1)
      /\ never_casts out
  | path_execute =>
      songs m <> [] /\ tick_keeps_going g m <> None
      /\ casting_window_up g = false
      /\ songs m' = songs m /\ current_index m' = advanced_index m
      /\ retry_count m' = retry_count m
      /\ exists aborted spell_id,
           only_stops aborted
           /\ out = aborted ++ [cast (nth (Z.to_nat (advanced_index m)) (songs m) 0) spell_id]
  end.
Proof.
  unfold tick, tick_path.
  destruct (size m =? 0) eqn:Esz.
  { apply Z.eqb_eq, size_zero_iff in Esz. auto. }
  assert (Hrun : songs m <> []).
  { apply Z.eqb_neq in Esz. intros E. apply Esz, size_zero_iff, E. }
  destruct (tick_keeps_going g m) as [[self char_info]|] eqn:Ego.
  2: { destruct (end_ m) as [m1 out1]. auto. }
  assert (Hgo : Some (self, char_info) <> None) by discriminate.
  destruct (casting_window_up g) eqn:Ecw.
  { cbn [casting_visible_timestamp start_of_cast_timestamp].
    destruct (to_ulonglong _ >? 1000); cbn; repeat split; auto. }
  destruct (to_ulonglong _ <? 150).
  { repeat split; auto. }
  destruct (_ || _).
  { repeat split; auto. }
  set (aborted := match ActorInfo self with
                  | Some a => if CastingSpellGemNumber a =? 255
                              then stop_current_cast g m else []
                  | None => []
                  end).
  assert (Hab : only_stops aborted).
  { subst aborted. destruct (ActorInfo self) as [a|]; [|intros e []].
    destruct (CastingSpellGemNumber a =? 255); [|intros e []].
    apply stop_current_cast_only_stops. }
  cbv zeta.
  destruct (MemorizedSpell char_info _ =? -1).
  { cbn. repeat split; auto. }
  destruct (match get_spell_mgr g with Some _ => _ | None => _ end).
  - cbn. repeat split; auto.
    intros gem id Hin. apply in_app_or in Hin. destruct Hin as [Hin|Hin].
    + destruct (Hab _ Hin) as [s Hs]. discriminate Hs.
    + destruct Hin as [Hin|[]]. discriminate Hin.
  - cbn. repeat split; auto. eauto.
Qed.

End TickPaths.

(** ** Claims about [end] and the stop notification *)

(** C8.  [end] is a full reset and idempotent: on a running melody it clears
    the songs, sets [current_index] to -1 and [retry_count] to 0 and prints
    the single line "Your melody has ended."; on an idle melody it changes
    nothing and prints nothing; hence a second [end] right after a first adds
    neither a state change nor a message. *)
Theorem end_is_idempotent_full_reset (m : Melody) :
  (songs m <> [] ->
     end_ m = ({| songs := []; current_index := -1; retry_count := 0 |},
               [print_chat USERCOLOR_SPELL_FAILURE "Your melody has ended." []]))
  /\ (songs m = [] -> end_ m = (m, []))
  /\ (let (m1, out1) := end_ m in
      let (m2, out2) := end_ m1 in
      m2 = m1 /\ out1 ++ out2 = out1).
Proof.
  split; [apply end_running|]. split; [apply end_idle|].
  unfold end_. destruct (songs m) eqn:E.
  - rewrite E. split; reflexivity.
  - cbn. split; reflexivity.
Qed.

Lemma end_is_idempotent_full_reset_witness :
  end_ {| songs := [2; 4]; current_index := 1; retry_count := 3 |}
  = ({| songs := []; current_index := -1; retry_count := 0 |},
     [print_chat USERCOLOR_SPELL_FAILURE "Your melody has ended." []])
  /\ end_ idle = (idle, []).
Proof.
  split.
  - apply (end_is_idempotent_full_reset
             {| songs := [2; 4]; current_index := 1; retry_count := 3 |}).
    cbn. discriminate.
  - apply (end_is_idempotent_full_reset idle). reflexivity.
Defined.

(** C6.  The stop notification ends the melody exactly when the melody is
    idle or the reason is not 3: in that case it is [end], and otherwise
    (reason 3 on a running melody) the songs stay and nothing is printed,
    whatever [retry_count] is. *)
Theorem stop_cast_ends_iff_idle_or_not_retryable (reason : Z) (m : Melody) :
  let (m', out) := handle_stop_cast_callback reason m in
  (songs m' = [] <-> (songs m = [] \/ reason <> 3))
  /\ (songs m = [] \/ reason <> 3 -> (m', out) = end_ m)
  /\ (songs m <> [] /\ reason = 3 -> songs m' = songs m /\ out = []).
Proof.
  unfold handle_stop_cast_callback.
  destruct (reason =? 3) eqn:Er; cbn [negb orb].
  - apply Z.eqb_eq in Er.
    destruct (size m =? 0) eqn:Es.
    + apply Z.eqb_eq, size_zero_iff in Es.
      rewrite (end_idle m Es). intuition congruence.
    + assert (Hrun : songs m <> []).
      { apply Z.eqb_neq in Es. intros E. apply Es, size_zero_iff, E. }
      destruct (current_index m >=? 0);
        [destruct (truthy _)|]; cbn [songs]; intuition congruence.
  - apply Z.eqb_neq in Er.
    pose proof (end_songs m) as He.
    destruct (end_ m) as [m1 out1]. cbn [fst] in He.
    intuition congruence.
Qed.

Lemma stop_cast_ends_iff_idle_or_not_retryable_witness :
  handle_stop_cast_callback 0 {| songs := [2; 4]; current_index := 0; retry_count := 40 |}
  = end_ {| songs := [2; 4]; current_index := 0; retry_count := 40 |}
  /\ songs (fst (handle_stop_cast_callback 3
                   {| songs := [2; 4]; current_index := 0; retry_count := 40 |}))
     = [2; 4].
Proof.
  split.
  - pose proof (stop_cast_ends_iff_idle_or_not_retryable 0
                  {| songs := [2; 4]; current_index := 0; retry_count := 40 |}) as H.
    destruct (handle_stop_cast_callback 0 _) as [m' out].
    apply H. right. discriminate.
  - pose proof (stop_cast_ends_iff_idle_or_not_retryable 3
                  {| songs := [2; 4]; current_index := 0; retry_count := 40 |}) as H.
    destruct (handle_stop_cast_callback 3 _) as [m' out].
    apply H. split; [discriminate|reflexivity].
Defined.

(** A stop notification with reason 3 on a running melody whose index is
    not negative: the counter goes up by one, and the index is rewound
    unless the new count is a multiple of 8. *)
Lemma stop_cast_retry (m : Melody) :
  songs m <> [] -> 0 <= current_index m ->
  handle_stop_cast_callback 3 m =
    ({| songs := songs m;
        current_index :=
          if Z.rem (to_int (retry_count m + 1)) RETRY_COUNT_REWIND_LIMIT =? 0
          then current_index m else rewound_index m;
        retry_count := to_int (retry_count m + 1) |}, []).
Proof.
  intros Hrun Hci. unfold handle_stop_cast_callback.
  rewrite (size_eqb_cons m Hrun). cbn [Z.eqb negb orb Pos.eqb].
  replace (current_index m >=? 0) with true
    by (symmetry; rewrite Z.geb_leb; apply Z.leb_le; lia).
  unfold truthy.
  destruct (Z.rem _ _ =? 0); reflexivity.
Qed.

(** The same notification while the index is still negative: nothing moves. *)
Lemma stop_cast_before_first_advance (m : Melody) :
  songs m <> [] -> current_index m < 0 ->
  handle_stop_cast_callback 3 m = (m, []).
Proof.
  intros Hrun Hci. unfold handle_stop_cast_callback.
  rewrite (size_eqb_cons m Hrun). cbn [Z.eqb negb orb Pos.eqb].
  replace (current_index m >=? 0) with false
    by (symmetry; rewrite Z.geb_leb; apply Z.leb_gt; lia).
  reflexivity.
Qed.

(** C4, as stated, fails: between [start] and the first advancing tick the
    index is -1 and a reason-3 notification leaves [retry_count] at its old
    value instead of adding one. *)
Lemma stop_cast_at_index_minus_one_does_not_count :
  let m := {| songs := [0]; current_index := -1; retry_count := 0 |} in
  songs m <> []
  /\ retry_count (fst (handle_stop_cast_callback 3 m)) = 0
  /\ retry_count (fst (handle_stop_cast_callback 3 m)) <> retry_count m + 1.
Proof. cbn. repeat split; discriminate. Qed.

(** C4, amended.  On a running melody a reason-3 stop notification adds
    exactly one to [retry_count] when [current_index] is not negative; while
    [current_index] is still negative (the state between a successful start
    and the first advancing tick) it changes nothing at all. *)
Theorem retryable_stop_counts_once_index_is_set (m : Melody) :
  songs m <> [] ->
  (0 <= current_index m -> INT_MIN <= retry_count m < INT_MAX ->
     retry_count (fst (handle_stop_cast_callback 3 m)) = retry_count m + 1)
  /\ (current_index m < 0 -> handle_stop_cast_callback 3 m = (m, [])).
Proof.
  intros Hrun. split.
  - intros Hci Hrc. rewrite (stop_cast_retry m Hrun Hci). cbn [fst retry_count].
    apply to_int_id. unfold in_int. lia.
  - intros Hci. apply stop_cast_before_first_advance; assumption.
Qed.

Lemma retryable_stop_counts_once_index_is_set_witness :
  retry_count (fst (handle_stop_cast_callback 3
                      {| songs := [2; 4]; current_index := 1; retry_count := 6 |}))
  = 6 + 1
  /\ handle_stop_cast_callback 3 {| songs := [2; 4]; current_index := -1; retry_count := 0 |}
     = ({| songs := [2; 4]; current_index := -1; retry_count := 0 |}, []).
Proof.
  split.
  - apply (retryable_stop_counts_once_index_is_set
             {| songs := [2; 4]; current_index := 1; retry_count := 6 |}).
    + cbn. discriminate.
    + cbn. lia.
    + cbn. unfold INT_MIN, INT_MAX. lia.
  - apply (retryable_stop_counts_once_index_is_set
             {| songs := [2; 4]; current_index := -1; retry_count := 0 |}).
    + cbn. discriminate.
    + cbn. lia.
Defined.

Lemma rem_zero_iff_mod_zero (a b : Z) : b <> 0 -> (Z.rem a b = 0 <-> a mod b = 0).
Proof.
  intros Hb. rewrite (Z.rem_divide a b Hb), (Z.mod_divide a b Hb). reflexivity.
Qed.

(** The position reached by advancing from an index inside the list. *)
Lemma advanced_index_mod (m : Melody) :
  0 <= current_index m < size m -> size m <= INT_MAX ->
  advanced_index m = (current_index m + 1) mod size m.
Proof.
  intros Hc Hs. rewrite advanced_index_spec;
    [|unfold in_int, INT_MIN, INT_MAX in *; lia|exact Hs].
  replace (current_index m + 1 <? 0) with false by (symmetry; apply Z.ltb_ge; lia).
  rewrite orb_false_r.
  destruct (current_index m + 1 >=? size m) eqn:E; rewrite Z.geb_leb in E.
  - apply Z.leb_le in E.
    replace (current_index m + 1) with (size m) by lia.
    rewrite Z.mod_same by lia. reflexivity.
  - apply Z.leb_gt in E. rewrite Z.mod_small by lia. reflexivity.
Qed.

(** C3, as stated, fails in its last clause: with a single song the eighth
    interruption skips the rewind, the next tick advances from position 0
    to position 0, and the same gem is cast again. *)
Lemma eighth_interruption_of_single_song_repeats_it :
  let m := {| songs := [0]; current_index := 0; retry_count := 7 |} in
  let m1 := fst (handle_stop_cast_callback 3 m) in
  let '(m2, _, out) :=
    @tick classic (bard_game 5000)
      (Some {| casting_visible_timestamp := 100; start_of_cast_timestamp := 100 |}) m1 in
  retry_count m1 = 8
  /\ current_index m1 = current_index m
  /\ current_index m2 = current_index m
  /\ nth (Z.to_nat (current_index m2)) (songs m2) 0
     = nth (Z.to_nat (current_index m)) (songs m) 0
  /\ out = [cast 0 700].
Proof. cbn. repeat split; reflexivity. Qed.

(** The reason-3 notification on a running melody with the index inside the
    list and the counter below [INT_MAX], read over the integers. *)
Lemma stop_cast_retry_in_range (m : Melody) :
  songs m <> [] -> size m <= INT_MAX ->
  0 <= current_index m < size m ->
  INT_MIN <= retry_count m < INT_MAX ->
  handle_stop_cast_callback 3 m =
    ({| songs := songs m;
        current_index :=
          if (retry_count m + 1) mod 8 =? 0 then current_index m
          else if current_index m - 1 <? 0 then size m - 1 else current_index m - 1;
        retry_count := retry_count m + 1 |}, []).
Proof.
  intros Hrun Hs Hc Hrc.
  rewrite (stop_cast_retry m Hrun (proj1 Hc)).
  rewrite (to_int_id (retry_count m + 1)) by (unfold in_int; lia).
  rewrite (rewound_index_spec m) by (unfold INT_MAX in *; lia).
  replace (Z.rem (retry_count m + 1) RETRY_COUNT_REWIND_LIMIT =? 0)
    with ((retry_count m + 1) mod 8 =? 0); [reflexivity|].
  unfold RETRY_COUNT_REWIND_LIMIT.
  destruct ((retry_count m + 1) mod 8 =? 0) eqn:E; symmetry.
  - apply Z.eqb_eq. apply rem_zero_iff_mod_zero; [discriminate|].
    apply Z.eqb_eq. exact E.
  - apply Z.eqb_neq. intros R. apply rem_zero_iff_mod_zero in R; [|discriminate].
    apply Z.eqb_neq in E. contradiction.
Qed.

(** C3, amended.  On a running melody with [current_index] inside the list,
    a reason-3 stop notification adds one to [retry_count]; when the new
    count is not a multiple of 8 it rewinds ([current_index] minus one, or
    the last position when that is negative), so that the next advance
    comes back to the same position; when the new count is a multiple of 8
    it leaves [current_index] alone, so that the next advance goes to the
    following position, [current_index + 1] modulo the length, which is a
    different position exactly when the melody has more than one song.
    Counting from zero, interruptions 1 to 7 re-attempt the position and
    the 8th moves on to the following one. *)
Theorem retryable_stop_rewinds_unless_multiple_of_8 (m : Melody) :
  songs m <> [] -> size m <= INT_MAX ->
  0 <= current_index m < size m ->
  INT_MIN <= retry_count m < INT_MAX ->
  let m' := fst (handle_stop_cast_callback 3 m) in
  retry_count m' = retry_count m + 1
  /\ songs m' = songs m
  /\ ((retry_count m + 1) mod 8 <> 0 ->
        current_index m' =
          (if current_index m - 1 <? 0 then size m - 1 else current_index m - 1)
        /\ advanced_index m' = current_index m)
  /\ ((retry_count m + 1) mod 8 = 0 ->
        current_index m' = current_index m
        /\ advanced_index m' = (current_index m + 1) mod size m
        /\ (advanced_index m' <> current_index m <-> 1 < size m))
  /\ (0 <= retry_count m < 7 -> advanced_index m' = current_index m)
  /\ (retry_count m = 7 -> advanced_index m' = (current_index m + 1) mod size m).
Proof.
  intros Hrun Hs Hc Hrc m'.
  assert (Hrew : (retry_count m + 1) mod 8 <> 0 ->
            current_index m' =
              (if current_index m - 1 <? 0 then size m - 1 else current_index m - 1)
            /\ advanced_index m' = current_index m).
  { intros Hmod. subst m'.
    rewrite (stop_cast_retry m Hrun (proj1 Hc)). cbn [fst].
    rewrite (to_int_id (retry_count m + 1)) by (unfold in_int; lia).
    destruct (Z.rem (retry_count m + 1) RETRY_COUNT_REWIND_LIMIT =? 0) eqn:E.
    - apply Z.eqb_eq, rem_zero_iff_mod_zero in E; [contradiction|discriminate].
    - split.
      + apply rewound_index_spec; unfold INT_MAX in *; lia.
      + apply advance_after_rewind; assumption. }
  assert (Hskip : (retry_count m + 1) mod 8 = 0 ->
            current_index m' = current_index m
            /\ advanced_index m' = (current_index m + 1) mod size m).
  { intros Hmod. subst m'.
    rewrite (stop_cast_retry_in_range m Hrun Hs Hc Hrc). cbn [fst].
    rewrite Hmod. cbn [Z.eqb current_index]. split; [reflexivity|].
    rewrite advanced_index_mod; cbn [current_index]; [reflexivity|exact Hc|exact Hs]. }
  split; [subst m'; rewrite (stop_cast_retry_in_range m Hrun Hs Hc Hrc); reflexivity|].
  split; [subst m'; rewrite (stop_cast_retry_in_range m Hrun Hs Hc Hrc); reflexivity|].
  split; [exact Hrew|]. split; [|split].
  - intros Hmod. destruct (Hskip Hmod) as [H1 H2].
    split; [exact H1|]. split; [exact H2|]. rewrite H2.
    destruct (Z.eq_dec (current_index m + 1) (size m)) as [E|N].
    + rewrite E, Z.mod_same by lia. lia.
    + rewrite Z.mod_small by lia. lia.
  - intros Hlt. apply Hrew. rewrite Z.mod_small by lia. lia.
  - intros H7. apply Hskip. rewrite H7. reflexivity.
Qed.

Lemma retryable_stop_rewinds_unless_multiple_of_8_witness :
  let m := {| songs := [2; 4]; current_index := 0; retry_count := 0 |} in
  let m' := fst (handle_stop_cast_callback 3 m) in
  retry_count m' = 0 + 1
  /\ songs m' = [2; 4]
  /\ ((0 + 1) mod 8 <> 0 ->
        current_index m' = (if 0 - 1 <? 0 then 2 - 1 else 0 - 1)
        /\ advanced_index m' = 0)
  /\ ((0 + 1) mod 8 = 0 ->
        current_index m' = 0
        /\ advanced_index m' = (0 + 1) mod 2
        /\ (advanced_index m' <> 0 <-> 1 < 2))
  /\ (0 <= 0 < 7 -> advanced_index m' = 0)
  /\ (0 = 7 -> advanced_index m' = (0 + 1) mod 2).
Proof.
  apply (retryable_stop_rewinds_unless_multiple_of_8
           {| songs := [2; 4]; current_index := 0; retry_count := 0 |}).
  - cbn. discriminate.
  - unfold size, INT_MAX. cbn. lia.
  - unfold size. cbn. lia.
  - unfold INT_MIN, INT_MAX. cbn. lia.
Defined.

(** ** Claims about [tick] *)

(** [n] reason-3 notifications in a row on a melody whose index is inside
    the list: the songs stay, the index stays inside, the counter grows
    by [n]. *)
Lemma interrupted_counts (n : nat) :
  forall m : Melody,
    songs m <> [] -> size m <= INT_MAX ->
    0 <= current_index m < size m ->
    INT_MIN <= retry_count m -> retry_count m + Z.of_nat n <= INT_MAX ->
    songs (interrupted n m) = songs m
    /\ 0 <= current_index (interrupted n m) < size m
    /\ retry_count (interrupted n m) = retry_count m + Z.of_nat n.
Proof.
  induction n as [|n IH]; intros m Hrun Hs Hc Hlo Hhi.
  - cbn [interrupted]. repeat split; lia.
  - cbn [interrupted]. rewrite (stop_cast_retry m Hrun (proj1 Hc)). cbn [fst].
    set (m1 := {| songs := songs m;
                  current_index :=
                    if Z.rem (to_int (retry_count m + 1)) RETRY_COUNT_REWIND_LIMIT =? 0
                    then current_index m else rewound_index m;
                  retry_count := to_int (retry_count m + 1) |}).
    assert (Hrc1 : retry_count m1 = retry_count m + 1).
    { subst m1. cbn [retry_count]. apply to_int_id. unfold in_int. lia. }
    assert (Hsz1 : size m1 = size m) by reflexivity.
    assert (Hc1 : 0 <= current_index m1 < size m1).
    { rewrite Hsz1. subst m1. cbn [current_index].
      destruct (Z.rem _ _ =? 0); [exact Hc|].
      apply rewound_index_in_range; assumption. }
    assert (Hlo1 : INT_MIN <= retry_count m1) by lia.
    assert (Hhi1 : retry_count m1 + Z.of_nat n <= INT_MAX) by lia.
    destruct (IH m1 Hrun Hs Hc1 Hlo1 Hhi1) as (IH1 & IH2 & IH3).
    rewrite IH1, IH3, Hrc1. rewrite Hsz1 in IH2.
    repeat split; lia || reflexivity.
Qed.

Section TickClaims.
Context {X : Externals}.

(** The first test of [tick] looks at the melody through [retry_count] only. *)
Lemma tick_keeps_going_below_limit (g : Game) (m m' : Melody) :
  tick_keeps_going g m <> None -> retry_count m' <= RETRY_COUNT_END_LIMIT ->
  tick_keeps_going g m' <> None.
Proof.
  unfold tick_keeps_going. intros H Hrc.
  destruct (negb (is_in_game g)); [exact H|].
  destruct (get_self g) as [self|]; [|exact H].
  destruct (get_char_info g) as [char_info|]; [|exact H].
  destruct (StandingState self =? Stance_Sit); [exact H|].
  destruct (truthy (StunnedState char_info)); [exact H|].
  cbn [orb] in *.
  replace (retry_count m' >? RETRY_COUNT_END_LIMIT) with false; [discriminate|].
  symmetry. rewrite Z.gtb_ltb. apply Z.ltb_ge. exact Hrc.
Qed.

Lemma tick_gives_up_above_limit (g : Game) (m : Melody) :
  retry_count m > RETRY_COUNT_END_LIMIT -> tick_keeps_going g m = None.
Proof.
  unfold tick_keeps_going. intros Hrc.
  destruct (negb (is_in_game g)); [reflexivity|].
  destruct (get_self g) as [self|]; [|reflexivity].
  destruct (get_char_info g) as [char_info|]; [|reflexivity].
  replace (retry_count m >? RETRY_COUNT_END_LIMIT) with true.
  - rewrite orb_true_r. reflexivity.
  - symmetry. rewrite Z.gtb_ltb. apply Z.ltb_lt. lia.
Qed.

Lemma tick_path_hard_termination_iff (g : Game) (st : option TickStatics) (m : Melody) :
  tick_path g st m = path_hard_termination
  <-> (songs m <> [] /\ tick_keeps_going g m = None).
Proof.
  pose proof (tick_by_path g st m) as H.
  destruct (tick g st m) as [[m' st'] out].
  destruct (tick_path g st m); split; intros E; try discriminate E;
    try reflexivity; intuition congruence.
Qed.

(** [tick] empties the songs on its [end] branch and nowhere else. *)
Lemma tick_songs (g : Game) (st : option TickStatics) (m : Melody) :
  (tick_path g st m <> path_hard_termination ->
     songs (fst (fst (tick g st m))) = songs m)
  /\ (tick_path g st m = path_hard_termination ->
        songs (fst (fst (tick g st m))) = []).
Proof.
  pose proof (tick_by_path g st m) as H.
  destruct (tick g st m) as [[m' st'] out]. cbn [fst].
  destruct (tick_path g st m); split; intros E; try discriminate E;
    try contradiction; try (intuition congruence).
  destruct H as (_ & _ & H & _).
  pose proof (end_songs m) as He. rewrite <- H in He. exact He.
Qed.

(** C10, amended.  [tick] changes the songs only on its [end] branch: on
    every other path (idle, casting window up, cool-down, busy, empty gem,
    missing target, cast) the songs after the call are the songs before it.
    The missing-target path changes two things: [current_index], which the
    advance has moved on, and [retry_count], which grows by one. *)
Theorem tick_changes_songs_only_when_ending
  (g : Game) (st : option TickStatics) (m : Melody) :
  (tick_path g st m <> path_hard_termination ->
     songs (fst (fst (tick g st m))) = songs m)
  /\ (tick_path g st m = path_no_target ->
        songs (fst (fst (tick g st m))) = songs m
        /\ current_index (fst (fst (tick g st m))) = advanced_index m
        /\ retry_count (fst (fst (tick g st m))) = to_int (retry_count m + 1))
  /\ (tick_path g st m = path_hard_termination ->
        fst (fst (tick g st m)) = fst (end_ m)).
Proof.
  split; [apply tick_songs|].
  pose proof (tick_by_path g st m) as H.
  destruct (tick g st m) as [[m' st'] out]. cbn [fst].
  split; intros E; rewrite E in H.
  - intuition congruence.
  - destruct H as (_ & _ & H & _). rewrite <- H. reflexivity.
Qed.

End TickClaims.

(** C10, as stated, fails in its aside on the missing-target path: the tick
    that stops at a single-target spell without a target has advanced
    [current_index] (here from 0 to 1) besides adding one to [retry_count]
    (here from 3 to 4). *)
Lemma missing_target_tick_also_advances_the_index :
  let m := {| songs := [2; 4]; current_index := 0; retry_count := 3 |} in
  let st := Some {| casting_visible_timestamp := 100; start_of_cast_timestamp := 100 |} in
  let g := sample_game bard 100 false true 5 5000 in
  @tick_path classic g st m = path_no_target
  /\ songs (fst (fst (@tick classic g st m))) = songs m
  /\ retry_count (fst (fst (@tick classic g st m))) = 4
  /\ current_index (fst (fst (@tick classic g st m))) = 1
  /\ current_index (fst (fst (@tick classic g st m))) <> current_index m.
Proof.
  vm_compute. repeat split; try reflexivity. intros H. discriminate H.
Qed.

Lemma tick_changes_songs_only_when_ending_witness :
  let m := {| songs := [2; 4]; current_index := 1; retry_count := 0 |} in
  let st := Some {| casting_visible_timestamp := 100; start_of_cast_timestamp := 100 |} in
  let untargeted := sample_game bard 100 false true 5 5000 in
  songs (fst (fst (@tick classic (bard_game 5000) None m))) = [2; 4]
  /\ songs (fst (fst (@tick classic (bard_game 5000) st m))) = [2; 4]
  /\ (songs (fst (fst (@tick classic untargeted st m))) = songs m
      /\ current_index (fst (fst (@tick classic untargeted st m))) = advanced_index m
      /\ retry_count (fst (fst (@tick classic untargeted st m)))
         = to_int (retry_count m + 1)).
Proof.
  split; [|split].
  - apply (proj1 (@tick_changes_songs_only_when_ending classic (bard_game 5000) None
                    {| songs := [2; 4]; current_index := 1; retry_count := 0 |})).
    cbn. discriminate.
  - apply (proj1 (@tick_changes_songs_only_when_ending classic (bard_game 5000)
                    (Some {| casting_visible_timestamp := 100;
                             start_of_cast_timestamp := 100 |})
                    {| songs := [2; 4]; current_index := 1; retry_count := 0 |})).
    cbn. discriminate.
  - apply (proj1 (proj2 (@tick_changes_songs_only_when_ending classic
                           (sample_game bard 100 false true 5 5000)
                           (Some {| casting_visible_timestamp := 100;
                                    start_of_cast_timestamp := 100 |})
                           {| songs := [2; 4]; current_index := 1; retry_count := 0 |}))).
    vm_compute. reflexivity.
Defined.

Section RunClaims.
Context {X : Externals}.

(** C2.  What the code does at the claim's input: starting from
    [retry_count = 0] with the index inside the list, fifteen reason-3
    notifications in a row leave [retry_count] at 15, and the next [tick],
    with no other reason to stop, keeps the songs, because its test is
    [retry_count > 15]; it is after a sixteenth notification that [tick]
    ends the melody. *)
Theorem tick_after_fifteen_interruptions_keeps_running
  (g : Game) (st : option TickStatics) (m : Melody) :
  songs m <> [] -> size m <= INT_MAX ->
  0 <= current_index m < size m ->
  retry_count m = 0 ->
  tick_keeps_going g m <> None ->
  retry_count (interrupted 15 m) = 15
  /\ songs (fst (fst (tick g st (interrupted 15 m)))) = songs m
  /\ songs (fst (fst (tick g st (interrupted 16 m)))) = [].
Proof.
  intros Hrun Hs Hc Hrc Hgo.
  assert (Hlo : INT_MIN <= retry_count m) by (rewrite Hrc; unfold INT_MIN; lia).
  destruct (interrupted_counts 15 m Hrun Hs Hc Hlo) as (S15 & _ & R15).
  { rewrite Hrc. unfold INT_MAX. lia. }
  destruct (interrupted_counts 16 m Hrun Hs Hc Hlo) as (S16 & _ & R16).
  { rewrite Hrc. unfold INT_MAX. lia. }
  rewrite Hrc in R15, R16.
  change (0 + Z.of_nat 15) with 15 in R15. change (0 + Z.of_nat 16) with 16 in R16.
  split; [exact R15|]. split.
  - rewrite <- S15. apply tick_songs.
    intros E. apply tick_path_hard_termination_iff in E. destruct E as [_ E].
    revert E. apply (tick_keeps_going_below_limit g m); [exact Hgo|].
    rewrite R15. unfold RETRY_COUNT_END_LIMIT. lia.
  - apply tick_songs. apply tick_path_hard_termination_iff. split.
    + rewrite S16. exact Hrun.
    + apply tick_gives_up_above_limit. rewrite R16.
      unfold RETRY_COUNT_END_LIMIT. lia.
Qed.

Lemma step_keeps_range (l : list Z) (e : Event) (c : Melody * option TickStatics) :
  Z.of_nat (List.length l) <= INT_MAX ->
  in_range_or_ended l (fst c) -> in_range_or_ended l (fst (step e c)).
Proof.
  intros Hl Hin. destruct c as [m st]. cbn [fst] in Hin.
  assert (Hended : forall m0, songs m0 <> [] ->
            in_range_or_ended l (fst (end_ m0))).
  { intros m0 H0. rewrite (end_running m0 H0). right. split; reflexivity. }
  destruct e as [g|reason]; cbn [step fst snd].
  - pose proof (tick_by_path g st m) as H.
    destruct (tick g st m) as [[m' st'] out]. cbn [fst].
    destruct (tick_path g st m).
    + destruct H as (_ & -> & _). exact Hin.
    + destruct H as (Hrun & _ & H & _).
      replace m' with (fst (end_ m)) by (rewrite <- H; reflexivity).
      apply Hended, Hrun.
    + destruct H as (Hrun & _ & _ & Hs & Hc & _).
      destruct Hin as [[El Hr]|[En _]]; [|contradiction].
      left. unfold size in *. rewrite Hs, Hc. split; assumption.
    + destruct H as (_ & _ & _ & -> & _). exact Hin.
    + destruct H as (_ & _ & _ & -> & _). exact Hin.
    + destruct H as (Hrun & _ & _ & Hs & Hc & _).
      destruct Hin as [[El Hr]|[En _]]; [|contradiction].
      left. split; [congruence|]. rewrite Hc.
      replace (size m') with (size m) by (unfold size; rewrite Hs; reflexivity).
      apply advanced_index_in_range. lia.
    + destruct H as (Hrun & _ & _ & Hs & Hc & _).
      destruct Hin as [[El Hr]|[En _]]; [|contradiction].
      left. split; [congruence|]. rewrite Hc.
      replace (size m') with (size m) by (unfold size; rewrite Hs; reflexivity).
      apply advanced_index_in_range. lia.
    + destruct H as (Hrun & _ & _ & Hs & Hc & _).
      destruct Hin as [[El Hr]|[En _]]; [|contradiction].
      left. split; [congruence|]. rewrite Hc.
      replace (size m') with (size m) by (unfold size; rewrite Hs; reflexivity).
      apply advanced_index_in_range. lia.
  - destruct Hin as [[El Hr]|[En Ec]].
    + assert (Hrun : songs m <> []).
      { intros E. unfold size in Hr. rewrite E in Hr. cbn in Hr. lia. }
      assert (Hs : size m <= INT_MAX) by (unfold size; rewrite El; exact Hl).
      destruct (Z.eq_dec reason 3) as [->|Hne].
      * rewrite (stop_cast_retry m Hrun (proj1 Hr)). cbn [fst].
        left. split; [exact El|]. cbn [current_index].
        change (size {| songs := songs m;
                        current_index :=
                          if Z.rem (to_int (retry_count m + 1)) RETRY_COUNT_REWIND_LIMIT =? 0
                          then current_index m else rewound_index m;
                        retry_count := to_int (retry_count m + 1) |})
          with (size m).
        destruct (Z.rem _ _ =? 0); [exact Hr|].
        apply rewound_index_in_range; assumption.
      * unfold handle_stop_cast_callback.
        replace (reason =? 3) with false by (symmetry; apply Z.eqb_neq; exact Hne).
        cbn [negb orb]. apply Hended, Hrun.
    + unfold handle_stop_cast_callback.
      rewrite (size_eqb_nil m En), orb_true_r, (end_idle m En).
      right. split; assumption.
Qed.

Lemma run_keeps_range (l : list Z) (es : list Event) :
  forall c : Melody * option TickStatics,
    Z.of_nat (List.length l) <= INT_MAX ->
    in_range_or_ended l (fst c) -> in_range_or_ended l (fst (run es c)).
Proof.
  induction es as [|e es IH]; intros c Hl Hin.
  - exact Hin.
  - cbn [run]. apply IH; [exact Hl|]. apply step_keeps_range; assumption.
Qed.

(** C5.  Once a tick has advanced, [current_index] is inside the list, and
    it stays inside across every later sequence of ticks and stop
    notifications for as long as the run lasts (a run that is ended has
    index -1 and no songs).  The advance is the increment, back to 0 when
    it reaches or exceeds the length or is negative; the rewind is the
    decrement, to the last position when it is negative. *)
Theorem current_index_stays_in_range
  (g : Game) (st : option TickStatics) (m : Melody) (es : list Event) :
  songs m <> [] -> size m <= INT_MAX ->
  advancing (tick_path g st m) = true ->
  let '(m1, st1, _) := tick g st m in
  songs m1 = songs m
  /\ 0 <= current_index m1 < size m1
  /\ in_range_or_ended (songs m) (fst (run es (m1, st1)))
  /\ advanced_index m1 =
       (if (current_index m1 + 1 >=? size m1) || (current_index m1 + 1 <? 0) then 0
        else current_index m1 + 1)
  /\ rewound_index m1 =
       (if current_index m1 - 1 <? 0 then size m1 - 1 else current_index m1 - 1).
Proof.
  intros Hrun Hs Hadv.
  pose proof (tick_by_path g st m) as H.
  destruct (tick g st m) as [[m1 st1] out].
  assert (Hpos : 0 < size m).
  { pose proof (size_nonneg m). destruct (Z.eq_dec (size m) 0) as [E|N]; [|lia].
    apply size_zero_iff in E. contradiction. }
  assert (Hm1 : songs m1 = songs m /\ current_index m1 = advanced_index m).
  { destruct (tick_path g st m); try discriminate Hadv; intuition congruence. }
  destruct Hm1 as [Hsongs Hci].
  assert (Hsz : size m1 = size m) by (unfold size; rewrite Hsongs; reflexivity).
  assert (Hr : 0 <= current_index m1 < size m1).
  { rewrite Hsz, Hci. apply advanced_index_in_range, Hpos. }
  split; [exact Hsongs|]. split; [exact Hr|]. split.
  - apply run_keeps_range; [exact Hs|]. left. split; assumption.
  - split.
    + apply advanced_index_spec; unfold in_int, INT_MIN, INT_MAX in *; lia.
    + apply rewound_index_spec; unfold INT_MAX in *; lia.
Qed.

(** C9.  While the casting window is up (visible, or its pointer null),
    [tick] casts nothing and does not advance: either the melody keeps its
    songs and its index, or the first test of [tick] has ended it.  On a
    running melody, when the clock is more than 1000 ms past the start of
    the current cast, [retry_count] is 0 after that tick. *)
Theorem tick_waits_while_casting_window_is_up
  (g : Game) (st : option TickStatics) (m : Melody) :
  casting_window_up g = true ->
  let '(m', _, out) := tick g st m in
  never_casts out
  /\ ((songs m' = songs m /\ current_index m' = current_index m)
      \/ (tick_keeps_going g m = None /\ (m', out) = end_ m))
  /\ (songs m <> [] ->
      to_ulonglong (GetTickCount64 g - start_of_cast_timestamp (statics_in_use g st))
        > 1000 ->
      retry_count m' = 0)
  /\ (tick_keeps_going g m <> None ->
      to_ulonglong (GetTickCount64 g - start_of_cast_timestamp (statics_in_use g st))
        <= 1000 ->
      m' = m).
Proof.
  intros Hup.
  pose proof (tick_by_path g st m) as H.
  destruct (tick g st m) as [[m' st'] out].
  destruct (tick_path g st m).
  - destruct H as (Hidle & -> & _ & ->).
    split; [intros gem id []|]. split; [left; split; reflexivity|].
    split; [intros Hrun; contradiction|reflexivity].
  - destruct H as (Hrun & Hgo & Hend & _).
    rewrite (end_running m Hrun) in Hend.
    assert (Hm : m' = {| songs := []; current_index := -1; retry_count := 0 |})
      by congruence.
    assert (Hout : out = [print_chat USERCOLOR_SPELL_FAILURE "Your melody has ended." []])
      by congruence.
    split; [rewrite Hout; intros gem id [Hin|[]]; discriminate Hin|].
    split; [right; split; [exact Hgo|]; rewrite (end_running m Hrun); exact Hend|].
    split; [intros _ _; rewrite Hm; reflexivity|intros Hne; contradiction].
  - destruct H as (Hrun & Hgo & _ & Hs & Hc & Hr & ->).
    split; [intros gem id []|]. split; [left; split; assumption|].
    destruct (to_ulonglong _ >? 1000) eqn:Et; rewrite Z.gtb_ltb in Et.
    + apply Z.ltb_lt in Et. split; [intros _ _; exact Hr|intros _ Hle; lia].
    + apply Z.ltb_ge in Et. split; [intros _ Hgt; lia|].
      intros _ _. destruct m', m. cbn in *. congruence.
  - destruct H as (_ & _ & Hdown & _). congruence.
  - destruct H as (_ & _ & Hdown & _). congruence.
  - destruct H as (_ & _ & Hdown & _). congruence.
  - destruct H as (_ & _ & Hdown & _). congruence.
  - destruct H as (_ & _ & Hdown & _). congruence.
Qed.

End RunClaims.

Lemma tick_after_fifteen_interruptions_keeps_running_witness :
  let m := {| songs := [1; 3]; current_index := 0; retry_count := 0 |} in
  retry_count (interrupted 15 m) = 15
  /\ songs (fst (fst (@tick classic (bard_game 5000) None (interrupted 15 m)))) = [1; 3]
  /\ songs (fst (fst (@tick classic (bard_game 5000) None (interrupted 16 m)))) = [].
Proof.
  apply (@tick_after_fifteen_interruptions_keeps_running classic (bard_game 5000) None
           {| songs := [1; 3]; current_index := 0; retry_count := 0 |}).
  - cbn. discriminate.
  - unfold size, INT_MAX. cbn. lia.
  - unfold size. cbn. lia.
  - reflexivity.
  - cbn. discriminate.
Defined.

Lemma current_index_stays_in_range_witness :
  let m := {| songs := [2; 4]; current_index := -1; retry_count := 0 |} in
  let st := Some {| casting_visible_timestamp := 100; start_of_cast_timestamp := 100 |} in
  let es := [ev_stop_cast 3; ev_tick (bard_game 6000); ev_stop_cast 3; ev_stop_cast 3] in
  let '(m1, st1, _) := @tick classic (bard_game 5000) st m in
  songs m1 = [2; 4]
  /\ 0 <= current_index m1 < size m1
  /\ in_range_or_ended [2; 4] (fst (@run classic es (m1, st1)))
  /\ advanced_index m1 =
       (if (current_index m1 + 1 >=? size m1) || (current_index m1 + 1 <? 0) then 0
        else current_index m1 + 1)
  /\ rewound_index m1 =
       (if current_index m1 - 1 <? 0 then size m1 - 1 else current_index m1 - 1).
Proof.
  apply (@current_index_stays_in_range classic (bard_game 5000)
           (Some {| casting_visible_timestamp := 100; start_of_cast_timestamp := 100 |})
           {| songs := [2; 4]; current_index := -1; retry_count := 0 |}
           [ev_stop_cast 3; ev_tick (bard_game 6000); ev_stop_cast 3; ev_stop_cast 3]).
  - cbn. discriminate.
  - unfold size, INT_MAX. cbn. lia.
  - reflexivity.
Defined.

Lemma tick_waits_while_casting_window_is_up_witness :
  let m := {| songs := [2; 4]; current_index := 1; retry_count := 5 |} in
  let st := Some {| casting_visible_timestamp := 100; start_of_cast_timestamp := 100 |} in
  let '(m', _, out) := @tick classic (bard_game_casting 5000) st m in
  never_casts out
  /\ ((songs m' = songs m /\ current_index m' = current_index m)
      \/ (@tick_keeps_going classic (bard_game_casting 5000) m = None
          /\ (m', out) = end_ m))
  /\ (songs m <> [] -> to_ulonglong (5000 - 100) > 1000 -> retry_count m' = 0)
  /\ (@tick_keeps_going classic (bard_game_casting 5000) m <> None ->
      to_ulonglong (5000 - 100) <= 1000 -> m' = m).
Proof.
  apply (@tick_waits_while_casting_window_is_up classic (bard_game_casting 5000)
           (Some {| casting_visible_timestamp := 100; start_of_cast_timestamp := 100 |})
           {| songs := [2; 4]; current_index := 1; retry_count := 5 |}).
  reflexivity.
Defined.

(** ** Claims about [start] *)

Section StartClaims.
Context {X : Externals}.

Lemma check_gems_complains_iff (char_info : EQCHARINFO) (new_songs : list Z) :
  check_gems char_info new_songs <> None
  <-> exists gem_index,
        In gem_index new_songs
        /\ (gem_index < 0 \/ gem_index >= EQ_NUM_SPELL_GEMS
            \/ MemorizedSpell char_info gem_index = -1).
Proof.
  induction new_songs as [|gem rest IH]; cbn [check_gems].
  - split; [congruence|]. intros (x & [] & _).
  - destruct (gem <? 0) eqn:Eneg; cbn [orb].
    { apply Z.ltb_lt in Eneg. split; [|discriminate].
      intros _. exists gem. split; [left; reflexivity|lia]. }
    destruct (gem >=? EQ_NUM_SPELL_GEMS) eqn:Ebig; rewrite Z.geb_leb in Ebig.
    { apply Z.leb_le in Ebig. split; [|discriminate].
      intros _. exists gem. split; [left; reflexivity|lia]. }
    destruct (MemorizedSpell char_info gem =? -1) eqn:Eempty.
    { apply Z.eqb_eq in Eempty. split; [|discriminate].
      intros _. exists gem. split; [left; reflexivity|auto]. }
    apply Z.ltb_ge in Eneg. apply Z.leb_gt in Ebig. apply Z.eqb_neq in Eempty.
    rewrite IH. split.
    + intros (x & Hin & Hx). exists x. split; [right; exact Hin|exact Hx].
    + intros (x & [<-|Hin] & Hx); [lia|]. exists x. split; assumption.
Qed.

(** A declined [start] hands the melody back as it was. *)
Lemma start_rejects (g : Game) (new_songs : list Z) (m : Melody) :
  start_precondition_fails g new_songs ->
  exists out, start g new_songs m = (false, m, out).
Proof.
  intros H. unfold start.
  destruct (is_in_game g) eqn:Egame; cbn [negb]; [|eexists; reflexivity].
  destruct (get_char_info g) as [char_info|] eqn:Echar; [|eexists; reflexivity].
  destruct (truthy (StunnedState char_info)) eqn:Estun; [eexists; reflexivity|].
  destruct (get_self g) as [self|] eqn:Eself; [|eexists; reflexivity].
  destruct (StandingState self =? Stance_Stand) eqn:Estand; cbn [negb];
    [|eexists; reflexivity].
  destruct (check_gems char_info new_songs) as [complaint|] eqn:Egems;
    [eexists; reflexivity|].
  exfalso. unfold truthy in Estun. apply negb_false_iff, Z.eqb_eq in Estun.
  apply Z.eqb_eq in Estand.
  destruct H as [H|[H|[(c & Hc & Hs)|[H|[(e & He & Hs)|(c & gem & Hc & Hin & Hbad)]]]]];
    try congruence.
  assert (c = char_info) by congruence. subst c.
  assert (Hne : check_gems char_info new_songs <> None).
  { apply check_gems_complains_iff. exists gem. split; assumption. }
  contradiction.
Qed.

(** With every precondition met, [start] takes the list as it is, of
    whatever length. *)
Lemma start_accepts (g : Game) (new_songs : list Z) (m : Melody) :
  ~ start_precondition_fails g new_songs ->
  start g new_songs m =
    (true, {| songs := new_songs; current_index := -1; retry_count := 0 |},
     match new_songs with
     | [] => []
     | _ :: _ => [print_chat USERCOLOR_SPELLS "You begin playing a melody." []]
     end).
Proof.
  intros H. unfold start, start_precondition_fails in *.
  destruct (is_in_game g) eqn:Egame; cbn [negb]; [|tauto].
  destruct (get_char_info g) as [char_info|] eqn:Echar; [|tauto].
  destruct (truthy (StunnedState char_info)) eqn:Estun.
  { exfalso. apply H. right. right. left. exists char_info. split; [reflexivity|].
    unfold truthy in Estun. apply negb_true_iff, Z.eqb_neq in Estun. exact Estun. }
  destruct (get_self g) as [self|] eqn:Eself; [|tauto].
  destruct (StandingState self =? Stance_Stand) eqn:Estand; cbn [negb].
  2: { exfalso. apply H. do 4 right. left. exists self. split; [reflexivity|].
       apply Z.eqb_neq. exact Estand. }
  destruct (check_gems char_info new_songs) as [complaint|] eqn:Egems; [|reflexivity].
  exfalso. apply H. do 5 right.
  assert (Hne : check_gems char_info new_songs <> None) by congruence.
  apply check_gems_complains_iff in Hne. destruct Hne as (gem & Hin & Hbad).
  exists char_info, gem. auto.
Qed.

(** C7.  A declined [start] is atomic: when a precondition fails (not in
    game, no character data or stunned, no own entity or not standing, a gem
    index outside [0, EQ_NUM_SPELL_GEMS), or an empty gem), [start] returns
    [false] and the songs, [current_index] and [retry_count] are those from
    before the call; and [start] returns [false] in no other case. *)
Theorem rejected_start_is_atomic (g : Game) (new_songs : list Z) (m : Melody) :
  (start_precondition_fails g new_songs ->
     fst (fst (start g new_songs m)) = false
     /\ snd (fst (start g new_songs m)) = m)
  /\ (fst (fst (start g new_songs m)) = false ->
        start_precondition_fails g new_songs
        /\ snd (fst (start g new_songs m)) = m).
Proof.
  assert (Hrej : start_precondition_fails g new_songs ->
            fst (fst (start g new_songs m)) = false
            /\ snd (fst (start g new_songs m)) = m).
  { intros H. destruct (start_rejects g new_songs m H) as [out ->].
    split; reflexivity. }
  split; [exact Hrej|].
  intros Hfalse.
  assert (Hfails : start_precondition_fails g new_songs).
  { destruct (is_in_game g) eqn:Egame; [|left; exact Egame].
    destruct (get_char_info g) as [char_info|] eqn:Echar; [|right; left; exact Echar].
    destruct (Z.eq_dec (StunnedState char_info) 0) as [Estun|Nstun].
    2: { right. right. left. exists char_info. split; [exact Echar|exact Nstun]. }
    destruct (get_self g) as [self|] eqn:Eself; [|do 3 right; left; exact Eself].
    destruct (Z.eq_dec (StandingState self) Stance_Stand) as [Estand|Nstand].
    2: { do 4 right. left. exists self. split; [exact Eself|exact Nstand]. }
    destruct (check_gems char_info new_songs) as [complaint|] eqn:Egems.
    - do 5 right.
      assert (Hne : check_gems char_info new_songs <> None) by congruence.
      apply check_gems_complains_iff in Hne. destruct Hne as (gem & Hin & Hbad).
      exists char_info, gem. auto.
    - exfalso. revert Hfalse. unfold start.
      rewrite Egame, Echar, Eself, Egems. unfold truthy.
      rewrite Estun, Estand, !Z.eqb_refl. cbn. discriminate. }
  split; [exact Hfails|]. apply Hrej, Hfails.
Qed.

End StartClaims.

Lemma rejected_start_is_atomic_witness :
  let running := {| songs := [2; 4]; current_index := 1; retry_count := 3 |} in
  fst (fst (@start classic (bard_game 5000) [0; 8] running)) = false
  /\ snd (fst (@start classic (bard_game 5000) [0; 8] running)) = running.
Proof.
  apply (@rejected_start_is_atomic classic (bard_game 5000) [0; 8]
           {| songs := [2; 4]; current_index := 1; retry_count := 3 |}).
  do 5 right. exists bard, 8. split; [reflexivity|].
  split; [right; left; reflexivity|].
  right. left. cbn. lia.
Defined.

(** C1.  What the code does at the claim's input: [start] has no test on
    the length, and the [/melody] handler lets through every command line of
    at most 10 words, so six songs are accepted, both by [start] called
    directly and through [/melody 1 1 1 1 1 1]; the handler's "up to 5
    songs" refusal only comes with ten songs or more. *)
Theorem six_songs_are_accepted :
  @start classic (bard_game 5000) [0; 0; 0; 0; 0; 0] idle
  = (true,
     {| songs := [0; 0; 0; 0; 0; 0]; current_index := -1; retry_count := 0 |},
     [print_chat USERCOLOR_SPELLS "You begin playing a melody." []])
  /\ @melody_command classic (bard_game 5000)
       ["/melody"; "1"; "1"; "1"; "1"; "1"; "1"] idle
     = ({| songs := [0; 0; 0; 0; 0; 0]; current_index := -1; retry_count := 0 |},
        [print_chat USERCOLOR_SPELLS "You begin playing a melody." []])
  /\ @melody_command classic (bard_game 5000)
       ["/melody"; "1"; "1"; "1"; "1"; "1"; "1"; "1"; "1"; "1"; "1"] idle
     = (idle,
        [print_chat USERCOLOR_SPELL_FAILURE
           "A melody can only consist of up to 5 songs." []]).
Proof. repeat split; reflexivity. Qed.

Section CommandLine.
Context {X : Externals}.

(** The [/melody] handler hands every parsed list of at most nine songs to
    [start]. *)
Lemma melody_command_starts
  (g : Game) (args : list string) (new_songs : list Z) (m : Melody)
  (char_info : EQCHARINFO) :
  get_char_info g = Some char_info ->
  Class char_info = ClassTypes_Bard ->
  Z.of_nat (List.length args) <= 10 ->
  parse_songs (tl args) [] = Some new_songs ->
  ~ start_precondition_fails g new_songs ->
  fst (melody_command g args m)
  = {| songs := new_songs; current_index := -1; retry_count := 0 |}.
Proof.
  intros Hc Hbard Hlen Hparse Hok. unfold melody_command.
  destruct (end_ m) as [m1 out1].
  rewrite Hc, Hbard, Z.eqb_refl. cbn [negb].
  replace (Z.of_nat (List.length args) >? 10) with false
    by (symmetry; rewrite Z.gtb_ltb; apply Z.ltb_ge; exact Hlen).
  rewrite Hparse, (start_accepts g new_songs m1 Hok). reflexivity.
Qed.

End CommandLine.

(** ** Worked scenarios *)

(** [start] on gems 2 and 4, a first tick that casts gem 2, a missed note
    that rewinds, a second tick that casts gem 2 again, and a stop for
    another reason that ends the melody. *)
Example melody_of_two_songs :
  let st := Some {| casting_visible_timestamp := 100; start_of_cast_timestamp := 100 |} in
  let '(ok, m0, _) := @start classic (bard_game 5000) [2; 4] idle in
  let '(m1, st1, out1) := @tick classic (bard_game 5000) st m0 in
  let m2 := fst (handle_stop_cast_callback 3 m1) in
  let '(m3, _, out3) := @tick classic (bard_game 6000) st1 m2 in
  let m4 := fst (handle_stop_cast_callback 0 m3) in
  ok = true
  /\ current_index m1 = 0 /\ out1 = [cast 2 702]
  /\ current_index m2 = 1 /\ retry_count m2 = 1
  /\ current_index m3 = 0 /\ out3 = [cast 2 702]
  /\ m4 = idle.
Proof. cbn. repeat split; reflexivity. Qed.

(** Fifteen casts in a row, each cut short by a missed note: the tick that
    follows finds [retry_count = 15] and carries on; after one more failure
    the tick ends the melody. *)
Example failed_casts_in_a_row :
  let attempt := [ev_tick (bard_game 5000); ev_stop_cast 3] in
  let m := {| songs := [1; 3]; current_index := -1; retry_count := 0 |} in
  let st := Some {| casting_visible_timestamp := 100; start_of_cast_timestamp := 100 |} in
  fst (@run classic (List.concat (repeat attempt 15) ++ [ev_tick (bard_game 5000)]) (m, st))
  = {| songs := [1; 3]; current_index := 1; retry_count := 15 |}
  /\ fst (@run classic (List.concat (repeat attempt 16) ++ [ev_tick (bard_game 5000)]) (m, st))
     = idle.
Proof. split; vm_compute; reflexivity. Qed.

(** * Further properties of the melody *)

Section MelodyFacts.
Context {X : Externals}.

Lemma tick_keeps_going_some (g : Game) (m : Melody) (self : Entity) (char_info : EQCHARINFO) :
  tick_keeps_going g m = Some (self, char_info) ->
  is_in_game g = true /\ get_self g = Some self /\ get_char_info g = Some char_info
  /\ StandingState self <> Stance_Sit /\ StunnedState char_info = 0
  /\ retry_count m <= RETRY_COUNT_END_LIMIT.
Proof.
  unfold tick_keeps_going. intros H.
  destruct (is_in_game g); cbn [negb] in H; [|discriminate H].
  destruct (get_self g) as [s|]; [|discriminate H].
  destruct (get_char_info g) as [c|]; [|discriminate H].
  destruct (StandingState s =? Stance_Sit) eqn:Esit; [discriminate H|].
  unfold truthy in H.
  destruct (StunnedState c =? 0) eqn:Estun; [|discriminate H].
  destruct (retry_count m >? RETRY_COUNT_END_LIMIT) eqn:Erc; [discriminate H|].
  cbn in H. injection H as <- <-.
  apply Z.eqb_neq in Esit. apply Z.eqb_eq in Estun.
  rewrite Z.gtb_ltb in Erc. apply Z.ltb_ge in Erc.
  repeat split; auto.
Qed.

Lemma tick_keeps_going_none_iff (g : Game) (m : Melody) :
  tick_keeps_going g m = None <-> must_end g m.
Proof.
  unfold tick_keeps_going, must_end. split.
  - intros H.
    destruct (is_in_game g); cbn [negb] in H; [|left; reflexivity].
    destruct (get_self g) as [s|]; [|right; left; reflexivity].
    destruct (get_char_info g) as [c|]; [|right; right; left; reflexivity].
    destruct (StandingState s =? Stance_Sit) eqn:Esit.
    { apply Z.eqb_eq in Esit. do 3 right. left. exists s. split; [reflexivity|exact Esit]. }
    unfold truthy in H.
    destruct (StunnedState c =? 0) eqn:Estun.
    2: { apply Z.eqb_neq in Estun. do 4 right. left. exists c.
         split; [reflexivity|exact Estun]. }
    destruct (retry_count m >? RETRY_COUNT_END_LIMIT) eqn:Erc; [|discriminate H].
    rewrite Z.gtb_ltb in Erc. apply Z.ltb_lt in Erc. do 5 right. lia.
  - intros H.
    destruct (is_in_game g); cbn [negb]; [|reflexivity].
    destruct (get_self g) as [s|]; [|reflexivity].
    destruct (get_char_info g) as [c|]; [|reflexivity].
    destruct H as [H|[H|[H|[(s' & Es & Hsit)|[(c' & Ec & Hstun)|Hrc]]]]];
      try discriminate H.
    + injection Es as <-. apply Z.eqb_eq in Hsit. rewrite Hsit. reflexivity.
    + injection Ec as <-. apply Z.eqb_neq in Hstun. unfold truthy.
      rewrite Hstun. cbn. rewrite orb_true_r. reflexivity.
    + replace (retry_count m >? RETRY_COUNT_END_LIMIT) with true
        by (symmetry; rewrite Z.gtb_ltb; apply Z.ltb_lt; lia).
      rewrite orb_true_r. reflexivity.
Qed.

(** What [tick] returns when it casts. *)
Lemma tick_execute_exact (g : Game) (st : option TickStatics) (m : Melody) :
  tick_path g st m = path_execute ->
  exists self char_info,
    tick_keeps_going g m = Some (self, char_info)
    /\ tick g st m =
         ({| songs := songs m; current_index := advanced_index m;
             retry_count := retry_count m |},
          Some {| casting_visible_timestamp :=
                    casting_visible_timestamp (statics_in_use g st);
                  start_of_cast_timestamp := GetTickCount64 g |},
          match ActorInfo self with
          | Some a => if CastingSpellGemNumber a =? 255 then stop_current_cast g m else []
          | None => []
          end
          ++ [cast (nth (Z.to_nat (advanced_index m)) (songs m) 0)
                (MemorizedSpell char_info
                   (nth (Z.to_nat (advanced_index m)) (songs m) 0))]).
Proof.
  unfold tick, tick_path.
  destruct (size m =? 0); [discriminate|].
  destruct (tick_keeps_going g m) as [[self char_info]|]; [|discriminate].
  destruct (casting_window_up g); [discriminate|].
  destruct (to_ulonglong _ <? 150); [discriminate|].
  destruct (_ || _); [discriminate|].
  cbv zeta.
  destruct (MemorizedSpell char_info _ =? -1); [discriminate|].
  destruct (match get_spell_mgr g with Some _ => _ | None => _ end); [discriminate|].
  intros _. exists self, char_info. split; reflexivity.
Qed.

(** What [tick] returns when it waits for the casting window. *)
Lemma tick_debounce_exact (g : Game) (st : option TickStatics) (m : Melody) :
  tick_path g st m = path_debounce ->
  snd (fst (tick g st m)) =
    Some {| casting_visible_timestamp := GetTickCount64 g;
            start_of_cast_timestamp := start_of_cast_timestamp (statics_in_use g st) |}
  /\ snd (tick g st m) = [].
Proof.
  unfold tick, tick_path.
  destruct (size m =? 0); [discriminate|].
  destruct (tick_keeps_going g m) as [[self char_info]|]; [|discriminate].
  destruct (casting_window_up g).
  - intros _. cbn [casting_visible_timestamp start_of_cast_timestamp].
    destruct (to_ulonglong _ >? 1000); split; reflexivity.
  - destruct (to_ulonglong _ <? 150); [discriminate|].
    destruct (_ || _); [discriminate|].
    cbv zeta.
    destruct (MemorizedSpell char_info _ =? -1); [discriminate|].
    destruct (match get_spell_mgr g with Some _ => _ | None => _ end); discriminate.
Qed.

Lemma size_pos (m : Melody) : songs m <> [] -> 0 < size m.
Proof.
  intros H. pose proof (size_nonneg m).
  destruct (Z.eq_dec (size m) 0) as [E|N]; [|lia].
  apply size_zero_iff in E. contradiction.
Qed.

Lemma advanced_index_from_minus_one (m : Melody) :
  songs m <> [] -> current_index m = -1 -> advanced_index m = 0.
Proof.
  intros Hrun Hci. pose proof (size_pos m Hrun) as Hs.
  unfold advanced_index. rewrite Hci.
  change (to_int (-1 + 1)) with 0.
  destruct ((to_size_t 0 >=? size m) || (0 <? 0)); reflexivity.
Qed.

(** [start] succeeds exactly when no precondition fails; it then replaces
    whatever melody there was by the request, with the index at -1 and the
    counter at 0, and announces the melody unless the request is empty. *)
Theorem start_succeeds_iff_preconditions_hold
  (g : Game) (new_songs : list Z) (m : Melody) :
  (fst (fst (start g new_songs m)) = true <-> ~ start_precondition_fails g new_songs)
  /\ (fst (fst (start g new_songs m)) = true ->
      snd (fst (start g new_songs m))
      = {| songs := new_songs; current_index := -1; retry_count := 0 |}
      /\ snd (start g new_songs m)
         = match new_songs with
           | [] => []
           | _ :: _ => [print_chat USERCOLOR_SPELLS "You begin playing a melody." []]
           end).
Proof.
  assert (Hok : fst (fst (start g new_songs m)) = true ->
                ~ start_precondition_fails g new_songs).
  { intros Ht Hf. destruct (start_rejects g new_songs m Hf) as [out E].
    rewrite E in Ht. discriminate Ht. }
  split; [split; [exact Hok|]|].
  - intros Hn. rewrite (start_accepts g new_songs m Hn). reflexivity.
  - intros Ht. rewrite (start_accepts g new_songs m (Hok Ht)). split; reflexivity.
Qed.

(** After a successful [start] (index -1) the first tick that advances lands
    on position 0, and when it casts, its only effect is the cast of the
    first song's gem: nothing is stopped first. *)
Theorem first_advancing_tick_starts_at_the_first_song
  (g : Game) (st : option TickStatics) (m : Melody) (gem : Z) (rest : list Z) :
  songs m = gem :: rest -> current_index m = -1 ->
  advancing (tick_path g st m) = true ->
  current_index (fst (fst (tick g st m))) = 0
  /\ (tick_path g st m = path_execute ->
      exists char_info,
        get_char_info g = Some char_info
        /\ snd (tick g st m) = [cast gem (MemorizedSpell char_info gem)]).
Proof.
  intros Hsongs Hci Hadv.
  assert (Hrun : songs m <> []) by (rewrite Hsongs; discriminate).
  pose proof (advanced_index_from_minus_one m Hrun Hci) as Hzero.
  split.
  - pose proof (tick_by_path g st m) as H.
    destruct (tick g st m) as [[m' st'] out]. cbn [fst].
    destruct (tick_path g st m); try discriminate Hadv;
      destruct H as (_ & _ & _ & _ & H & _); rewrite H; exact Hzero.
  - intros Hex. destruct (tick_execute_exact g st m Hex) as (self & c & Hgo & ->).
    exists c. split; [apply (tick_keeps_going_some g m self c Hgo)|].
    cbn [snd]. rewrite Hzero, Hsongs. cbn [Z.to_nat nth].
    assert (Hstop : stop_current_cast g m = []).
    { unfold stop_current_cast. destruct (get_char_info g); [|reflexivity].
      rewrite Hci. reflexivity. }
    rewrite Hstop.
    destruct (ActorInfo self) as [a|]; [destruct (CastingSpellGemNumber a =? 255)|];
      reflexivity.
Qed.

End MelodyFacts.

Lemma first_advancing_tick_starts_at_the_first_song_witness :
  let m := {| songs := [2; 4]; current_index := -1; retry_count := 0 |} in
  let st := Some {| casting_visible_timestamp := 100; start_of_cast_timestamp := 100 |} in
  current_index (fst (fst (@tick classic (bard_game 5000) st m))) = 0
  /\ (@tick_path classic (bard_game 5000) st m = path_execute ->
      exists char_info,
        get_char_info (bard_game 5000) = Some char_info
        /\ snd (@tick classic (bard_game 5000) st m)
           = [cast 2 (MemorizedSpell char_info 2)]).
Proof.
  apply (@first_advancing_tick_starts_at_the_first_song classic (bard_game 5000)
           (Some {| casting_visible_timestamp := 100; start_of_cast_timestamp := 100 |})
           {| songs := [2; 4]; current_index := -1; retry_count := 0 |} 2 [4]).
  - reflexivity.
  - reflexivity.
  - reflexivity.
Defined.

Section TickFacts.
Context {X : Externals}.

Lemma advancing_ticks_from_inside (gs : list Game) :
  forall (m : Melody) (st : option TickStatics),
    size m <= INT_MAX -> 0 <= current_index m < size m ->
    every_tick advancing gs (m, st) ->
    songs (fst (ticks gs (m, st))) = songs m
    /\ current_index (fst (ticks gs (m, st)))
       = (current_index m + Z.of_nat (List.length gs)) mod size m.
Proof.
  induction gs as [|g gs IH]; intros m st Hs Hc Hall.
  - cbn. rewrite Z.add_0_r, Z.mod_small by lia. split; reflexivity.
  - cbn [ticks every_tick fst snd] in *. destruct Hall as [Hadv Hall].
    pose proof (tick_by_path g st m) as H.
    destruct (tick g st m) as [[m1 st1] out]. cbn [fst] in *.
    assert (Hm1 : songs m1 = songs m /\ current_index m1 = advanced_index m).
    { destruct (tick_path g st m); try discriminate Hadv; intuition congruence. }
    destruct Hm1 as [Hsongs Hci].
    assert (Hsz : size m1 = size m) by (unfold size; rewrite Hsongs; reflexivity).
    rewrite (advanced_index_mod m Hc Hs) in Hci.
    assert (Hc1 : 0 <= current_index m1 < size m1).
    { rewrite Hsz, Hci. apply Z.mod_pos_bound. lia. }
    destruct (IH m1 st1) as [IH1 IH2]; [rewrite Hsz; exact Hs|exact Hc1|exact Hall|].
    split; [congruence|].
    rewrite IH2, Hsz, Hci, Zplus_mod_idemp_l. f_equal.
    cbn [List.length]. lia.
Qed.

(** Ticks that advance go round the songs in order: after [k >= 1] of them
    in a row, from the index left by [start] or from any index inside the
    list, the index is the old one plus [k], modulo the length, and the
    songs are the same. *)
Theorem advancing_ticks_cycle_through_the_songs
  (gs : list Game) (m : Melody) (st : option TickStatics) :
  songs m <> [] -> size m <= INT_MAX ->
  -1 <= current_index m < size m -> gs <> [] ->
  every_tick advancing gs (m, st) ->
  songs (fst (ticks gs (m, st))) = songs m
  /\ current_index (fst (ticks gs (m, st)))
     = (current_index m + Z.of_nat (List.length gs)) mod size m.
Proof.
  intros Hrun Hs Hc Hne Hall.
  destruct gs as [|g gs]; [contradiction|].
  cbn [ticks every_tick fst snd] in *. destruct Hall as [Hadv Hall].
  pose proof (tick_by_path g st m) as H.
  destruct (tick g st m) as [[m1 st1] out]. cbn [fst] in *.
  assert (Hm1 : songs m1 = songs m /\ current_index m1 = advanced_index m).
  { destruct (tick_path g st m); try discriminate Hadv; intuition congruence. }
  destruct Hm1 as [Hsongs Hci].
  assert (Hsz : size m1 = size m) by (unfold size; rewrite Hsongs; reflexivity).
  pose proof (size_pos m Hrun) as Hpos.
  assert (Hci' : current_index m1 = (current_index m + 1) mod size m).
  { rewrite Hci. destruct (Z.eq_dec (current_index m) (-1)) as [E|N].
    - rewrite (advanced_index_from_minus_one m Hrun E), E. reflexivity.
    - apply advanced_index_mod; [lia|exact Hs]. }
  assert (Hc1 : 0 <= current_index m1 < size m1).
  { rewrite Hsz, Hci'. apply Z.mod_pos_bound. lia. }
  destruct (advancing_ticks_from_inside gs m1 st1) as [R1 R2];
    [rewrite Hsz; exact Hs|exact Hc1|exact Hall|].
  split; [congruence|].
  rewrite R2, Hsz, Hci', Zplus_mod_idemp_l. f_equal.
  cbn [List.length]. lia.
Qed.

(** An idle melody is a fixed point of every entry point but [start]: a
    tick returns it with the statics untouched and no effect, a stop
    notification of any reason does the same, and so does any sequence of
    the two. *)
Theorem idle_melody_ignores_ticks_and_stops
  (m : Melody) (st : option TickStatics) :
  songs m = [] ->
  (forall g, tick g st m = (m, st, []))
  /\ (forall reason, handle_stop_cast_callback reason m = (m, []))
  /\ (forall es, run es (m, st) = (m, st)).
Proof.
  intros Hidle.
  assert (Ht : forall g, tick g st m = (m, st, [])).
  { intros g. unfold tick. rewrite (size_eqb_nil m Hidle). reflexivity. }
  assert (Hs : forall reason, handle_stop_cast_callback reason m = (m, [])).
  { intros reason. unfold handle_stop_cast_callback.
    rewrite (size_eqb_nil m Hidle), orb_true_r. apply end_idle, Hidle. }
  split; [exact Ht|]. split; [exact Hs|].
  induction es as [|e es IH]; [reflexivity|].
  cbn [run]. destruct e as [g|reason]; cbn [step fst snd].
  - rewrite Ht. exact IH.
  - rewrite Hs. exact IH.
Qed.

(** On a running melody [tick] ends the melody exactly when the character
    is not in game, the own entity or the character data is missing, the
    character sits or is stunned, or [retry_count] is above 15; the result
    is then the cleared melody, the statics as they were, and the one line
    "Your melody has ended.". *)
Theorem tick_ends_exactly_when_it_must
  (g : Game) (st : option TickStatics) (m : Melody) :
  songs m <> [] ->
  (must_end g m
   <-> tick g st m =
         ({| songs := []; current_index := -1; retry_count := 0 |}, st,
          [print_chat USERCOLOR_SPELL_FAILURE "Your melody has ended." []])).
Proof.
  intros Hrun. split.
  - intros Hmust. apply tick_keeps_going_none_iff in Hmust.
    unfold tick. rewrite (size_eqb_cons m Hrun), Hmust, (end_running m Hrun).
    reflexivity.
  - intros Htick. apply tick_keeps_going_none_iff.
    destruct (tick_keeps_going g m) as [p|] eqn:Ego; [|reflexivity].
    exfalso.
    assert (Hpath : tick_path g st m <> path_hard_termination).
    { intros E. apply tick_path_hard_termination_iff in E. destruct E as [_ E].
      congruence. }
    pose proof (proj1 (tick_songs g st m) Hpath) as Hsongs.
    rewrite Htick in Hsongs. cbn in Hsongs. apply Hrun. symmetry. exact Hsongs.
Qed.

(** Within 150 ms of the last sight of the casting window, while the client
    is not ready to transact, or while the character is not standing (and
    not sitting), a tick defers: the melody comes back unchanged and nothing
    is asked of the client. *)
Theorem tick_defers_without_touching_the_melody
  (g : Game) (st : option TickStatics) (m : Melody)
  (self : Entity) (char_info : EQCHARINFO) :
  songs m <> [] ->
  tick_keeps_going g m = Some (self, char_info) ->
  casting_window_up g = false ->
  (to_ulonglong (GetTickCount64 g - casting_visible_timestamp (statics_in_use g st)) < 150
   \/ get_eq g = None \/ get_eq g = Some false
   \/ StandingState self <> Stance_Stand) ->
  tick g st m = (m, Some (statics_in_use g st), []).
Proof.
  intros Hrun Hgo Hdown Hwhy. unfold tick.
  rewrite (size_eqb_cons m Hrun), Hgo, Hdown.
  destruct (to_ulonglong _ <? 150) eqn:Ecool; [reflexivity|].
  apply Z.ltb_ge in Ecool.
  destruct Hwhy as [H|[H|[H|H]]].
  - lia.
  - rewrite H. reflexivity.
  - rewrite H. reflexivity.
  - apply Z.eqb_neq in H. rewrite H. cbn [negb]. rewrite orb_true_r. reflexivity.
Qed.

Lemma stop_current_cast_stops_the_current_song (g : Game) (m : Melody) :
  stops_the_current_song g m (stop_current_cast g m).
Proof.
  unfold stop_current_cast, stops_the_current_song.
  destruct (get_char_info g) as [c|]; [|left; reflexivity].
  destruct (current_index m >=? 0) eqn:E1; cbn [andb]; [|left; reflexivity].
  destruct (to_size_t (current_index m) <? size m) eqn:E2; [|left; reflexivity].
  rewrite Z.geb_leb in E1. apply Z.leb_le in E1. apply Z.ltb_lt in E2.
  right. exists c. auto.
Qed.

Lemma stop_then_act (g : Game) (m : Melody) (aborted action : list Effect)
  (executes : Prop) :
  stops_the_current_song g m aborted ->
  (action = []
   \/ (exists color format args, action = [print_chat color format args])
   \/ (executes /\ exists gem spell_id, action = [cast gem spell_id])) ->
  exists aborted' action',
    aborted ++ action = aborted' ++ action'
    /\ stops_the_current_song g m aborted'
    /\ only_stops aborted'
    /\ (List.length aborted' <= 1)%nat
    /\ (List.length action' <= 1)%nat
    /\ (forall e, In e action' -> forall spell_id, e <> StopCast_original spell_id)
    /\ (forall gem spell_id, In (cast gem spell_id) action' -> executes).
Proof.
  intros Hstops Haction. exists aborted, action.
  split; [reflexivity|]. split; [exact Hstops|].
  assert (Hshape : only_stops aborted /\ (List.length aborted <= 1)%nat).
  { destruct Hstops as [->|(c & _ & _ & _ & ->)].
    - split; [intros e []|cbn; lia].
    - split; [|cbn; lia]. intros e [<-|[]]. eexists. reflexivity. }
  destruct Hshape as [Hs1 Hs2]. split; [exact Hs1|]. split; [exact Hs2|].
  destruct Haction as [->|[(c & f & a & ->)|(Hex & gem & id & ->)]].
  - split; [cbn; lia|]. split; [intros e []|intros gem id []].
  - split; [cbn; lia|]. split.
    + intros e [<-|[]] id. discriminate.
    + intros gem id [E|[]]. discriminate E.
  - split; [cbn; lia|]. split.
    + intros e [<-|[]] id'. discriminate.
    + intros gem' id' _. exact Hex.
Qed.

(** Whatever the path, one tick asks at most two things of the client: at
    most one stop, which is then the stop of the spell memorised in the gem
    of the song at [current_index] as it is before the advance, followed by
    at most one cast or one line of chat; and a cast only comes out of the
    path that executes. *)
Theorem tick_stops_at_most_once_then_acts_at_most_once
  (g : Game) (st : option TickStatics) (m : Melody) :
  exists aborted action,
    snd (tick g st m) = aborted ++ action
    /\ stops_the_current_song g m aborted
    /\ only_stops aborted
    /\ (List.length aborted <= 1)%nat
    /\ (List.length action <= 1)%nat
    /\ (forall e, In e action -> forall spell_id, e <> StopCast_original spell_id)
    /\ (forall gem spell_id, In (cast gem spell_id) action ->
          tick_path g st m = path_execute).
Proof.
  assert (Hnil : stops_the_current_song g m []) by (left; reflexivity).
  unfold tick, tick_path.
  destruct (size m =? 0).
  { apply (stop_then_act g m [] [] _ Hnil). left. reflexivity. }
  destruct (tick_keeps_going g m) as [[self char_info]|].
  2: { unfold end_. destruct (songs m).
       - apply (stop_then_act g m [] [] _ Hnil). left. reflexivity.
       - apply (stop_then_act g m [] [_] _ Hnil). right. left. eauto. }
  destruct (casting_window_up g).
  { cbn [casting_visible_timestamp start_of_cast_timestamp].
    destruct (to_ulonglong _ >? 1000);
      apply (stop_then_act g m [] [] _ Hnil); left; reflexivity. }
  destruct (to_ulonglong _ <? 150).
  { apply (stop_then_act g m [] [] _ Hnil). left. reflexivity. }
  destruct (_ || _).
  { apply (stop_then_act g m [] [] _ Hnil). left. reflexivity. }
  set (aborted := match ActorInfo self with
                  | Some a => if CastingSpellGemNumber a =? 255
                              then stop_current_cast g m else []
                  | None => []
                  end).
  assert (Hab : stops_the_current_song g m aborted).
  { subst aborted. destruct (ActorInfo self) as [a|]; [|exact Hnil].
    destruct (CastingSpellGemNumber a =? 255); [|exact Hnil].
    apply stop_current_cast_stops_the_current_song. }
  cbv zeta.
  destruct (MemorizedSpell char_info _ =? -1).
  { cbn [snd].
    destruct (stop_then_act g m aborted [] (path_empty_slot = path_execute) Hab)
      as (a' & act' & E & H); [left; reflexivity|].
    rewrite app_nil_r in E. exists a', act'. split; [exact E|exact H]. }
  destruct (match get_spell_mgr g with Some _ => _ | None => _ end); cbn [snd].
  - apply (stop_then_act g m aborted [_] _ Hab). right. left. eauto.
  - apply (stop_then_act g m aborted [_] _ Hab). right. right.
    split; [reflexivity|eauto].
Qed.

Lemma missing_target_ticks_count (gs : list Game) :
  forall (m : Melody) (st : option TickStatics),
    0 <= retry_count m ->
    every_tick is_no_target gs (m, st) ->
    (gs = [] \/ retry_count m + Z.of_nat (List.length gs) <= 16)
    /\ retry_count (fst (ticks gs (m, st))) = retry_count m + Z.of_nat (List.length gs)
    /\ songs (fst (ticks gs (m, st))) = songs m.
Proof.
  induction gs as [|g gs IH]; intros m st Hrc Hall.
  - cbn [ticks every_tick List.length fst snd]. rewrite Z.add_0_r.
    repeat split; auto.
  - cbn [ticks every_tick fst snd] in *. destruct Hall as [Hpath Hall].
    pose proof (tick_by_path g st m) as H.
    destruct (tick g st m) as [[m1 st1] out]. cbn [fst] in *.
    destruct (tick_path g st m); try discriminate Hpath.
    destruct H as (_ & Hgo & _ & Hsongs & _ & Hrc1 & _).
    assert (Hle : retry_count m <= RETRY_COUNT_END_LIMIT).
    { destruct (tick_keeps_going g m) as [[self c]|] eqn:E; [|congruence].
      apply (tick_keeps_going_some g m self c E). }
    unfold RETRY_COUNT_END_LIMIT in Hle.
    rewrite to_int_id in Hrc1 by (unfold in_int, INT_MIN, INT_MAX; lia).
    destruct (IH m1 st1) as (B & R & S); [lia|exact Hall|].
    rewrite R, S, Hrc1, Hsongs. cbn [List.length].
    split; [right|split; [|reflexivity]].
    + destruct B as [->|B]; cbn [List.length] in *; lia.
    + lia.
Qed.

(** A single-target spell without a target costs one retry each time, so
    ticks that all stop at the missing target cannot follow one another
    more than [16 - retry_count] times; after the one that brings the count
    to 16 the next tick ends the melody. *)
Theorem missing_target_ticks_are_bounded
  (gs : list Game) (m : Melody) (st : option TickStatics) :
  0 <= retry_count m -> gs <> [] ->
  every_tick is_no_target gs (m, st) ->
  retry_count m + Z.of_nat (List.length gs) <= 16
  /\ retry_count (fst (ticks gs (m, st))) = retry_count m + Z.of_nat (List.length gs)
  /\ songs (fst (ticks gs (m, st))) = songs m
  /\ (retry_count m + Z.of_nat (List.length gs) = 16 ->
      forall g, songs (fst (fst (tick g (snd (ticks gs (m, st)))
                                    (fst (ticks gs (m, st)))))) = []).
Proof.
  intros Hrc Hne Hall.
  destruct (missing_target_ticks_count gs m st Hrc Hall) as (B & R & S).
  destruct B as [B|B]; [contradiction|].
  split; [exact B|]. split; [exact R|]. split; [exact S|].
  intros E g.
  assert (Hrun : songs m <> []).
  { destruct gs as [|g0 gs0]; [contradiction|].
    cbn [every_tick fst snd] in Hall. destruct Hall as [Hpath _].
    pose proof (tick_by_path g0 st m) as H.
    destruct (tick g0 st m) as [[m1 st1] out].
    destruct (tick_path g0 st m); try discriminate Hpath. apply H. }
  apply tick_songs. apply tick_path_hard_termination_iff. split.
  - rewrite S. exact Hrun.
  - apply tick_gives_up_above_limit. rewrite R. unfold RETRY_COUNT_END_LIMIT. lia.
Qed.

(** An empty gem is skipped without a word and without a retry: along any
    run of ticks that all meet an empty gem the counter and the songs stay
    as they are, so such a run is not bounded by the retry limit. *)
Theorem empty_gems_are_skipped_for_free (gs : list Game) :
  forall (m : Melody) (st : option TickStatics),
    every_tick is_empty_slot gs (m, st) ->
    retry_count (fst (ticks gs (m, st))) = retry_count m
    /\ songs (fst (ticks gs (m, st))) = songs m.
Proof.
  induction gs as [|g gs IH]; intros m st Hall.
  - split; reflexivity.
  - cbn [ticks every_tick fst snd] in *. destruct Hall as [Hpath Hall].
    pose proof (tick_by_path g st m) as H.
    destruct (tick g st m) as [[m1 st1] out]. cbn [fst] in *.
    destruct (tick_path g st m); try discriminate Hpath.
    destruct H as (_ & _ & _ & Hsongs & _ & Hrc1 & _).
    destruct (IH m1 st1 Hall) as [R S]. rewrite R, S. split; assumption.
Qed.

End TickFacts.

Section CommandFacts.
Context {X : Externals}.

(** The state [start] leaves: the one it was given, or the new run. *)
Lemma start_outcome (g : Game) (new_songs : list Z) (m : Melody) :
  (fst (fst (start g new_songs m)) = false /\ snd (fst (start g new_songs m)) = m)
  \/ (~ start_precondition_fails g new_songs
      /\ snd (fst (start g new_songs m))
         = {| songs := new_songs; current_index := -1; retry_count := 0 |}).
Proof.
  destruct (fst (fst (start g new_songs m))) eqn:E.
  - right.
    assert (Hok : ~ start_precondition_fails g new_songs).
    { intros Hf. destruct (start_rejects g new_songs m Hf) as [out Eo].
      rewrite Eo in E. discriminate E. }
    split; [exact Hok|]. rewrite (start_accepts g new_songs m Hok). reflexivity.
  - left. split; [reflexivity|].
    revert E. unfold start.
    destruct (negb (is_in_game g)); [reflexivity|].
    destruct (get_char_info g) as [c|]; [|reflexivity].
    destruct (truthy (StunnedState c)); [reflexivity|].
    destruct (get_self g) as [s|]; [|reflexivity].
    destruct (negb (StandingState s =? Stance_Stand)); [reflexivity|].
    destruct (check_gems c new_songs); [reflexivity|].
    cbn. discriminate.
Qed.

(** The [/melody] command always ends the melody that was playing: the
    "ended" line, if any, comes first, and the melody afterwards is either
    cleared or the freshly started list parsed from a command line of at
    most ten words; the old songs never survive.  The bare command leaves
    no songs at all. *)
Theorem melody_command_never_keeps_the_old_melody
  (g : Game) (args : list string) (m : Melody) :
  let (m', out) := melody_command g args m in
  (exists rest, out = snd (end_ m) ++ rest)
  /\ (m' = fst (end_ m)
      \/ exists new_songs,
           parse_songs (tl args) [] = Some new_songs
           /\ Z.of_nat (List.length args) <= 10
           /\ ~ start_precondition_fails g new_songs
           /\ m' = {| songs := new_songs; current_index := -1; retry_count := 0 |})
  /\ (tl args = [] -> songs m' = []).
Proof.
  unfold melody_command.
  pose proof (end_songs m) as Hend.
  destruct (end_ m) as [m1 out1]. cbn [fst snd] in *.
  destruct (match get_char_info g with
            | Some char_info => negb (Class char_info =? ClassTypes_Bard)
            | None => true
            end).
  { split; [eauto|]. split; [left; reflexivity|intros _; exact Hend]. }
  destruct (Z.of_nat (List.length args) >? 10) eqn:Elen.
  { split; [eauto|]. split; [left; reflexivity|intros _; exact Hend]. }
  rewrite Z.gtb_ltb in Elen. apply Z.ltb_ge in Elen.
  destruct (parse_songs (tl args) []) as [new_songs|] eqn:Eparse.
  2: { split; [eauto|]. split; [left; reflexivity|intros _; exact Hend]. }
  pose proof (start_outcome g new_songs m1) as Hstart.
  destruct (start g new_songs m1) as [[ok m2] out2]. cbn [fst snd] in Hstart.
  split; [eauto|]. split.
  - destruct Hstart as [[_ ->]|[Hok ->]]; [left; reflexivity|].
    right. exists new_songs. auto.
  - intros Hbare. rewrite Hbare in Eparse. cbn in Eparse. injection Eparse as <-.
    destruct Hstart as [[_ ->]|[_ ->]]; [exact Hend|reflexivity].
Qed.

(** The songs of a command line are its arguments in order, each read as a
    number and lowered by one (gem 1 is index 0), as long as the numbers
    read are [int]s above [INT_MIN], so that the subtraction stays in
    range; an argument that does not read as a number refuses the whole
    line. *)
Theorem parse_songs_reads_one_based_gems (args : list string) :
  forall acc : list Z,
    (forall a v, In a args -> tryParse a = Some v -> INT_MIN < v <= INT_MAX) ->
    (forall l, parse_songs args acc = Some l
               <-> exists vals, map tryParse args = map Some vals
                                /\ l = acc ++ map (fun v => v - 1) vals)
    /\ (parse_songs args acc = None <-> exists a, In a args /\ tryParse a = None).
Proof.
  induction args as [|a args IH]; intros acc Hint; cbn [parse_songs map].
  - split.
    + intros l. split.
      * intros E. injection E as <-. exists []. rewrite app_nil_r. split; reflexivity.
      * intros (vals & Hv & ->). destruct vals; [|discriminate Hv].
        cbn. rewrite app_nil_r. reflexivity.
    + split; [discriminate|]. intros (a & [] & _).
  - assert (Hrest : forall b v, In b args -> tryParse b = Some v ->
                                INT_MIN < v <= INT_MAX).
    { intros b v Hin. apply Hint. right. exact Hin. }
    destruct (tryParse a) as [v|] eqn:Ea.
    + pose proof (Hint a v (or_introl eq_refl) Ea) as Hv.
      cbv zeta.
      rewrite (to_int_id v) by (unfold in_int; lia).
      rewrite (to_int_id (v - 1)) by (unfold in_int; lia).
      destruct (IH (acc ++ [v - 1]) Hrest) as [IHs IHn]. split.
      * intros l. rewrite IHs. split.
        -- intros (vals & Hvals & ->). exists (v :: vals). cbn [map].
           rewrite Hvals, <- app_assoc. split; reflexivity.
        -- intros (vals & Hvals & ->).
           destruct vals as [|v' vals]; [discriminate Hvals|].
           cbn [map] in Hvals. injection Hvals as Hv' Hvals. subst v'.
           exists vals. rewrite <- app_assoc. split; [exact Hvals|reflexivity].
      * rewrite IHn. split.
        -- intros (b & Hin & Hb). exists b. split; [right; exact Hin|exact Hb].
        -- intros (b & [<-|Hin] & Hb); [congruence|]. exists b. split; assumption.
    + split.
      * intros l. split; [discriminate|].
        intros (vals & Hv & _). destruct vals; discriminate Hv.
      * split; [|reflexivity]. intros _. exists a. split; [left; reflexivity|exact Ea].
Qed.

(** [start] complains about the first gem of the request that is out of
    range or empty, under its number as typed (index plus one, for an index
    below [INT_MAX], so that the sum is an [int]); "invalid" wins over
    "empty" for that gem. *)
Theorem check_gems_reports_the_first_bad_gem
  (char_info : EQCHARINFO) (good : list Z) (bad : Z) (rest : list Z) :
  (forall gem, In gem good ->
     0 <= gem < EQ_NUM_SPELL_GEMS /\ MemorizedSpell char_info gem <> -1) ->
  bad < 0 \/ bad >= EQ_NUM_SPELL_GEMS \/ MemorizedSpell char_info bad = -1 ->
  INT_MIN <= bad < INT_MAX ->
  check_gems char_info (good ++ bad :: rest)
  = Some (if (bad <? 0) || (bad >=? EQ_NUM_SPELL_GEMS)
          then print_chat USERCOLOR_SPELL_FAILURE "Error: Invalid spell gem %i" [bad + 1]
          else print_chat USERCOLOR_SPELL_FAILURE "Error: spell gem %i is empty" [bad + 1]).
Proof.
  intros Hgood Hbad Hint. induction good as [|gem good IH]; cbn [app check_gems].
  - rewrite (to_int_id (bad + 1)) by (unfold in_int; lia).
    destruct ((bad <? 0) || (bad >=? EQ_NUM_SPELL_GEMS)) eqn:E; [reflexivity|].
    apply orb_false_iff in E. destruct E as [E1 E2].
    apply Z.ltb_ge in E1. rewrite Z.geb_leb in E2. apply Z.leb_gt in E2.
    destruct Hbad as [H|[H|H]]; try lia.
    rewrite H, Z.eqb_refl. reflexivity.
  - destruct (Hgood gem (or_introl eq_refl)) as [Hr Hm].
    replace (gem <? 0) with false by (symmetry; apply Z.ltb_ge; lia).
    replace (gem >=? EQ_NUM_SPELL_GEMS) with false
      by (symmetry; rewrite Z.geb_leb; apply Z.leb_gt; lia).
    apply Z.eqb_neq in Hm. rewrite Hm. cbn [orb].
    apply IH. intros gem' Hin. apply Hgood. right. exact Hin.
Qed.

End CommandFacts.

(** ** Stop notifications that pile up, and the two timers *)

Lemma next_multiple_of_8 (rc : Z) :
  0 <= rc ->
  ((rc + 1) mod 8 = 0 -> (rc + 1) / 8 = rc / 8 + 1)
  /\ ((rc + 1) mod 8 <> 0 -> (rc + 1) / 8 = rc / 8).
Proof.
  intros H. split; intros Hm; Z.div_mod_to_equations; lia.
Qed.

Lemma rewind_is_minus_one_mod (ci size : Z) :
  0 <= ci < size ->
  (if ci - 1 <? 0 then size - 1 else ci - 1) = (ci - 1) mod size.
Proof.
  intros H. destruct (ci - 1 <? 0) eqn:E.
  - apply Z.ltb_lt in E. apply (Z.mod_unique_pos (ci - 1) size (-1)); lia.
  - apply Z.ltb_ge in E. rewrite Z.mod_small by lia. reflexivity.
Qed.

(** Stop notifications with reason 3 that arrive with no tick in between
    each rewind again: after [n] of them the index has gone back, modulo the
    length, by [n] minus the number of counts that were multiples of 8, and
    the counter has grown by [n]. *)
Theorem repeated_stops_rewind_repeatedly (n : nat) :
  forall m : Melody,
    songs m <> [] -> size m <= INT_MAX ->
    0 <= current_index m < size m ->
    0 <= retry_count m -> retry_count m + Z.of_nat n <= INT_MAX ->
    current_index (interrupted n m)
    = (current_index m - (Z.of_nat n - skipped_rewinds (retry_count m) n)) mod size m
    /\ retry_count (interrupted n m) = retry_count m + Z.of_nat n.
Proof.
  induction n as [|n IH]; intros m Hrun Hs Hc Hrc Hmax.
  - cbn [interrupted]. unfold skipped_rewinds.
    change (Z.of_nat 0) with 0. rewrite !Z.add_0_r, Z.sub_diag, Z.sub_0_r.
    rewrite Z.mod_small by lia. split; reflexivity.
  - cbn [interrupted].
    rewrite (stop_cast_retry_in_range m Hrun Hs Hc) by (unfold INT_MIN; lia).
    cbn [fst].
    set (m1 := {| songs := songs m;
                  current_index :=
                    if (retry_count m + 1) mod 8 =? 0 then current_index m
                    else if current_index m - 1 <? 0 then size m - 1
                         else current_index m - 1;
                  retry_count := retry_count m + 1 |}).
    assert (Hsz : size m1 = size m) by reflexivity.
    assert (Hrc1 : retry_count m1 = retry_count m + 1) by reflexivity.
    assert (Hci1 : current_index m1 =
                   if (retry_count m + 1) mod 8 =? 0 then current_index m
                   else (current_index m - 1) mod size m).
    { subst m1. cbn [current_index].
      rewrite (rewind_is_minus_one_mod (current_index m) (size m) Hc). reflexivity. }
    assert (Hc1 : 0 <= current_index m1 < size m1).
    { rewrite Hsz, Hci1. destruct (_ =? 0); [exact Hc|].
      apply Z.mod_pos_bound. lia. }
    destruct (IH m1) as [IHc IHr]; try assumption; try lia.
    rewrite IHc, IHr, Hsz, Hrc1. split; [|lia].
    unfold skipped_rewinds.
    replace (retry_count m + Z.of_nat (S n)) with (retry_count m + 1 + Z.of_nat n) by lia.
    destruct (next_multiple_of_8 (retry_count m) Hrc) as [Hyes Hno].
    rewrite Hci1.
    destruct ((retry_count m + 1) mod 8 =? 0) eqn:E.
    + apply Z.eqb_eq in E. rewrite (Hyes E). f_equal. lia.
    + apply Z.eqb_neq in E. rewrite (Hno E).
      rewrite Zminus_mod_idemp_l. f_equal. lia.
Qed.

Section TimerFacts.
Context {X : Externals}.

(** After a tick that casts at time [t1], a tick that finds the casting
    window up at time [t2] clears [retry_count] exactly when [t2 - t1], as
    an unsigned 64-bit difference, is more than 1000 ms. *)
Theorem retry_count_resets_a_second_after_the_cast
  (g1 g2 : Game) (st : option TickStatics) (m : Melody) :
  tick_path g1 st m = path_execute ->
  tick_path g2 (snd (fst (tick g1 st m))) (fst (fst (tick g1 st m))) = path_debounce ->
  retry_count (fst (fst (tick g2 (snd (fst (tick g1 st m))) (fst (fst (tick g1 st m))))))
  = if to_ulonglong (GetTickCount64 g2 - GetTickCount64 g1) >? 1000 then 0
    else retry_count m.
Proof.
  intros H1. destruct (tick_execute_exact g1 st m H1) as (self & c & _ & ->).
  cbn [fst snd]. intros H2.
  match goal with
  | |- context [tick g2 ?s ?m1] =>
      pose proof (tick_by_path g2 s m1) as H; rewrite H2 in H;
      destruct (tick g2 s m1) as [[m2 st2] out2]
  end.
  cbn [fst]. destruct H as (_ & _ & _ & _ & _ & Hr & _).
  exact Hr.
Qed.

(** After a tick that saw the casting window up at time [t1], a tick less
    than 150 ms later casts nothing, even with the window gone: unless its
    first test ends the melody, it hands everything back unchanged. *)
Theorem no_cast_within_150_ms_of_the_casting_window
  (g1 g2 : Game) (st : option TickStatics) (m : Melody) :
  tick_path g1 st m = path_debounce ->
  casting_window_up g2 = false ->
  to_ulonglong (GetTickCount64 g2 - GetTickCount64 g1) < 150 ->
  never_casts
    (snd (tick g2 (snd (fst (tick g1 st m))) (fst (fst (tick g1 st m)))))
  /\ (tick_keeps_going g2 (fst (fst (tick g1 st m))) <> None ->
      tick g2 (snd (fst (tick g1 st m))) (fst (fst (tick g1 st m)))
      = (fst (fst (tick g1 st m)), snd (fst (tick g1 st m)), [])).
Proof.
  intros H1 Hdown Hsoon.
  destruct (tick_debounce_exact g1 st m H1) as [Hst _].
  pose proof (tick_by_path g1 st m) as H. rewrite H1 in H.
  destruct (tick g1 st m) as [[m1 st1] out1]. cbn [fst snd] in *.
  destruct H as (Hrun & _ & _ & Hsongs & _).
  assert (Hrun1 : songs m1 <> []) by congruence.
  subst st1. unfold tick.
  rewrite (size_eqb_cons m1 Hrun1).
  destruct (tick_keeps_going g2 m1) as [[self c]|].
  - rewrite Hdown. cbn [statics_in_use casting_visible_timestamp].
    replace (to_ulonglong (GetTickCount64 g2 - GetTickCount64 g1) <? 150) with true
      by (symmetry; apply Z.ltb_lt; exact Hsoon).
    split; [intros gem id []|reflexivity].
  - rewrite (end_running m1 Hrun1). cbn [snd]. split.
    + intros gem id [E|[]]. discriminate E.
    + intros Hne. contradiction.
Qed.

End TimerFacts.

(** * Properties of the key binds *)

Module BindsFacts.
Import Binds.

(** ** The last two targets *)

Lemma target_step_keeps_distinct (get_entity_by_id : Z -> option Binds.Entity)
  (e : TargetEvent) (s : option Binds.Entity * (Z * Z)) :
  (fst (snd s) = snd (snd s) -> snd s = (0, 0)) ->
  fst (snd (target_step get_entity_by_id e s))
  = snd (snd (target_step get_entity_by_id e s)) ->
  snd (target_step get_entity_by_id e s) = (0, 0).
Proof.
  intros Hinv. destruct s as [target [first second]].
  destruct e as [| | |t]; cbn [target_step fst snd] in *.
  - unfold main_loop. destruct target as [t|]; [|exact Hinv].
    cbn [fst]. destruct (SpawnId t =? first) eqn:E; cbn [negb fst snd].
    + exact Hinv.
    + apply Z.eqb_neq in E. intros H. contradiction.
  - reflexivity.
  - destruct (toggle_last_two true false target get_entity_by_id (first, second));
      exact Hinv.
  - exact Hinv.
Qed.

(** Across any sequence of main loops, zone changes, toggle keys and
    selections the two recorded spawn ids are never equal, except when both
    are 0. *)
Theorem last_targets_are_distinct_unless_cleared
  (get_entity_by_id : Z -> option Binds.Entity) (es : list TargetEvent) :
  forall s : option Binds.Entity * (Z * Z),
    (fst (snd s) = snd (snd s) -> snd s = (0, 0)) ->
    fst (snd (target_run get_entity_by_id es s))
    = snd (snd (target_run get_entity_by_id es s)) ->
    snd (target_run get_entity_by_id es s) = (0, 0).
Proof.
  induction es as [|e es IH]; intros s Hinv.
  - exact Hinv.
  - cbn [target_run]. apply IH. apply target_step_keeps_distinct. exact Hinv.
Qed.

(** The main loop records a change of target once: afterwards the first id
    is the target's, the second is the former first when the target is new,
    and running the loop again on the same target changes nothing more. *)
Theorem main_loop_records_a_new_target_once
  (target : Binds.Entity) (last_targets : Z * Z) :
  fst (main_loop (Some target) last_targets) = SpawnId target
  /\ (SpawnId target <> fst last_targets ->
      snd (main_loop (Some target) last_targets) = fst last_targets)
  /\ main_loop (Some target) (main_loop (Some target) last_targets)
     = main_loop (Some target) last_targets.
Proof.
  destruct last_targets as [first second]. unfold main_loop. cbn [fst].
  destruct (SpawnId target =? first) eqn:E; cbn [negb fst snd].
  - rewrite E. cbn [negb]. apply Z.eqb_eq in E.
    split; [symmetry; exact E|]. split; [intros H; contradiction|reflexivity].
  - rewrite Z.eqb_refl. cbn [negb]. auto.
Qed.

(** With targets [a] then [b] recorded and [b] selected, the toggle key
    selects [a]; once the main loop has caught up, a second press selects
    [b] again and the pair is back where it was.  A second press before the
    main loop has run does nothing. *)
Theorem toggling_twice_returns_to_the_target
  (get_entity_by_id : Z -> option Binds.Entity) (ea eb : Binds.Entity) :
  SpawnId ea <> SpawnId eb -> SpawnId ea <> 0 -> SpawnId eb <> 0 ->
  get_entity_by_id (SpawnId ea) = Some ea ->
  get_entity_by_id (SpawnId eb) = Some eb ->
  let s := (Some eb, (SpawnId eb, SpawnId ea)) in
  target_run get_entity_by_id [te_toggle_key; te_main_loop] s
  = (Some ea, (SpawnId ea, SpawnId eb))
  /\ target_run get_entity_by_id
       [te_toggle_key; te_main_loop; te_toggle_key; te_main_loop] s = s
  /\ target_run get_entity_by_id [te_toggle_key; te_toggle_key] s
     = (Some ea, (SpawnId eb, SpawnId ea)).
Proof.
  intros Hab Ha Hb La Lb s. subst s.
  assert (Eab : (SpawnId ea =? SpawnId eb) = false) by (apply Z.eqb_neq; exact Hab).
  assert (Eba : (SpawnId eb =? SpawnId ea) = false)
    by (apply Z.eqb_neq; intros E; apply Hab; symmetry; exact E).
  assert (Ea0 : (SpawnId ea =? 0) = false) by (apply Z.eqb_neq; exact Ha).
  assert (Eb0 : (SpawnId eb =? 0) = false) by (apply Z.eqb_neq; exact Hb).
  assert (Step1 : target_step get_entity_by_id te_toggle_key
                    (Some eb, (SpawnId eb, SpawnId ea))
                  = (Some ea, (SpawnId eb, SpawnId ea))).
  { cbn. rewrite Z.eqb_refl, Ea0. cbn. rewrite La. reflexivity. }
  assert (Step2 : target_step get_entity_by_id te_main_loop
                    (Some ea, (SpawnId eb, SpawnId ea))
                  = (Some ea, (SpawnId ea, SpawnId eb))).
  { cbn. rewrite Eab. reflexivity. }
  assert (Step3 : target_step get_entity_by_id te_toggle_key
                    (Some ea, (SpawnId ea, SpawnId eb))
                  = (Some eb, (SpawnId ea, SpawnId eb))).
  { cbn. rewrite Z.eqb_refl, Eb0. cbn. rewrite Lb. reflexivity. }
  assert (Step4 : target_step get_entity_by_id te_main_loop
                    (Some eb, (SpawnId ea, SpawnId eb))
                  = (Some eb, (SpawnId eb, SpawnId ea))).
  { cbn. rewrite Eba. reflexivity. }
  assert (Step5 : target_step get_entity_by_id te_toggle_key
                    (Some ea, (SpawnId eb, SpawnId ea))
                  = (Some ea, (SpawnId eb, SpawnId ea))).
  { cbn. rewrite Eba. reflexivity. }
  cbn [target_run]. rewrite Step1, Step2, Step3, Step4, Step5. auto.
Qed.

(** The toggle key only ever selects a recorded spawn: it needs the key
    going down outside the chat input, and then selects the entity of the
    first id when nothing is targeted, or of the second id when the target
    is the first; the id is never 0. *)
Theorem toggle_only_selects_a_recorded_spawn
  (key_down UI_ChatInputCheck : bool) (get_target : option Binds.Entity)
  (get_entity_by_id : Z -> option Binds.Entity) (last_targets : Z * Z)
  (ent : Binds.Entity) :
  toggle_last_two key_down UI_ChatInputCheck get_target get_entity_by_id last_targets
  = Some ent ->
  key_down = true /\ UI_ChatInputCheck = false
  /\ exists id,
       id <> 0 /\ get_entity_by_id id = Some ent
       /\ ((get_target = None /\ id = fst last_targets)
           \/ (exists target, get_target = Some target
                 /\ SpawnId target = fst last_targets /\ id = snd last_targets)).
Proof.
  unfold toggle_last_two. intros H.
  destruct key_down; cbn [andb] in H; [|discriminate H].
  destruct UI_ChatInputCheck; cbn [negb] in H; [discriminate H|].
  split; [reflexivity|]. split; [reflexivity|].
  destruct get_target as [target|].
  - destruct (fst last_targets =? SpawnId target) eqn:E1; [|discriminate H].
    destruct (snd last_targets =? 0) eqn:E2; [discriminate H|].
    cbn in H. apply Z.eqb_eq in E1. apply Z.eqb_neq in E2.
    exists (snd last_targets). split; [exact E2|]. split; [exact H|].
    right. exists target. auto.
  - destruct (fst last_targets =? 0) eqn:E1; [discriminate H|].
    cbn in H. apply Z.eqb_neq in E1.
    exists (fst last_targets). split; [exact E1|]. split; [exact H|].
    left. auto.
Qed.

(** ** Dispatch *)

Section DispatchFacts.
Variable W : Type.

Lemma run_replacements_app (pre post : list (Replacement W)) (isdown : bool) (w : W) :
  run_replacements (pre ++ post) isdown w
  = (if fst (run_replacements pre isdown w)
     then run_replacements pre isdown w
     else run_replacements post isdown (snd (run_replacements pre isdown w))).
Proof.
  revert w. induction pre as [|f pre IH]; intros w; cbn [app run_replacements].
  - reflexivity.
  - destruct (f isdown w) as [handled w']. destruct handled; [reflexivity|apply IH].
Qed.

Lemma run_replacements_true (fns : list (Replacement W)) (isdown : bool) :
  forall (w w' : W),
    run_replacements fns isdown w = (true, w') ->
    exists pre f post w1,
      fns = pre ++ f :: post
      /\ run_replacements pre isdown w = (false, w1)
      /\ f isdown w1 = (true, w').
Proof.
  induction fns as [|f fns IH]; intros w w' H; cbn [run_replacements] in H.
  - discriminate H.
  - destruct (f isdown w) as [handled w0] eqn:Ef. destruct handled.
    + injection H as <-. exists [], f, fns, w. auto.
    + destruct (IH w0 w' H) as (pre & f' & post & w1 & -> & Hpre & Hf).
      exists (f :: pre), f', post, w1. split; [reflexivity|]. split; [|exact Hf].
      cbn [run_replacements]. rewrite Ef. exact Hpre.
Qed.

(** [execute_cmd] returns true exactly when the command is dispatched (the
    game does not want input, or the key goes up) and one of the replacement
    functions of the command, reached after all the earlier ones returned
    false, returns true; the functions after it and the bound function are
    then not run: the result is what that function left. *)
Theorem execute_cmd_is_true_iff_a_replacement_takes_it
  (h : Hook W) (game_wants_input : bool) (cmd : Z) (isdown : bool) (w w' : W) :
  execute_cmd h game_wants_input cmd isdown w = (true, w')
  <-> ((game_wants_input = false \/ isdown = false)
       /\ exists pre f post w1,
            ReplacementFunctions h cmd = Some (pre ++ f :: post)
            /\ run_replacements pre isdown w = (false, w1)
            /\ f isdown w1 = (true, w')).
Proof.
  unfold execute_cmd. split.
  - intros H.
    destruct (negb game_wants_input || negb isdown) eqn:Ed; [|discriminate H].
    split.
    { destruct game_wants_input; [|left; reflexivity].
      destruct isdown; [discriminate Ed|right; reflexivity]. }
    destruct (ReplacementFunctions h cmd) as [fns|].
    + destruct (run_replacements fns isdown w) as [handled w1] eqn:Er.
      destruct handled.
      * injection H as <-.
        destruct (run_replacements_true fns isdown w w1 Er)
          as (pre & f & post & w0 & -> & Hpre & Hf).
        exists pre, f, post, w0. auto.
      * destruct (KeyMapFunctions h cmd); discriminate H.
    + destruct (KeyMapFunctions h cmd); discriminate H.
  - intros (Hd & pre & f & post & w1 & Hfns & Hpre & Hf).
    replace (negb game_wants_input || negb isdown) with true
      by (destruct Hd as [-> | ->]; [reflexivity|symmetry; apply orb_true_r]).
    rewrite Hfns, run_replacements_app, Hpre. cbn [fst snd run_replacements].
    rewrite Hf. reflexivity.
Qed.

(** When no replacement takes the command, the bound function, if there is
    one, runs after all of them on what they left, and [execute_cmd] still
    returns false; a key going down while the game wants input reaches no
    function at all. *)
Theorem execute_cmd_falls_through_to_the_bound_function
  (h : Hook W) (game_wants_input : bool) (cmd : Z) (isdown : bool) (w w1 : W) :
  match ReplacementFunctions h cmd with
  | Some fns => run_replacements fns isdown w
  | None => (false, w)
  end = (false, w1) ->
  execute_cmd h game_wants_input cmd isdown w
  = (false,
     if game_wants_input && isdown then w
     else match KeyMapFunctions h cmd with
          | Some fn => fn isdown w1
          | None => w1
          end).
Proof.
  intros H. unfold execute_cmd. rewrite H.
  destruct game_wants_input, isdown; cbn [negb orb andb];
    try reflexivity; destruct (KeyMapFunctions h cmd); reflexivity.
Qed.

(** [replace_cmd] appends: the new function is asked last, after every
    function registered earlier for the command has returned false, and the
    functions of the other commands are left alone. *)
Theorem replace_cmd_appends_to_the_command
  (h : Hook W) (cmd : Z) (callback : Replacement W) (isdown : bool) (w : W) :
  (forall other game_wants_input w0,
     other <> cmd ->
     execute_cmd (replace_cmd cmd callback h) game_wants_input other isdown w0
     = execute_cmd h game_wants_input other isdown w0)
  /\ exists fns,
       ReplacementFunctions (replace_cmd cmd callback h) cmd = Some (fns ++ [callback])
       /\ (ReplacementFunctions h cmd = Some fns
           \/ (ReplacementFunctions h cmd = None /\ fns = []))
       /\ run_replacements (fns ++ [callback]) isdown w
          = (if fst (run_replacements fns isdown w)
             then run_replacements fns isdown w
             else callback isdown (snd (run_replacements fns isdown w))).
Proof.
  split.
  - intros other wants w0 Hne. unfold execute_cmd, replace_cmd.
    cbn [ReplacementFunctions KeyMapFunctions].
    apply Z.eqb_neq in Hne. rewrite Hne. reflexivity.
  - exists (match ReplacementFunctions h cmd with Some fns => fns | None => [] end).
    split; [|split].
    + unfold replace_cmd. cbn [ReplacementFunctions]. rewrite Z.eqb_refl. reflexivity.
    + destruct (ReplacementFunctions h cmd); [left; reflexivity|right; auto].
    + rewrite run_replacements_app. cbn [run_replacements].
      destruct (callback isdown _) as [handled w'] eqn:E.
      destruct (fst (run_replacements _ isdown w)); [reflexivity|].
      destruct handled; reflexivity.
Qed.

(** [add_bind] with a short name that fits: the name is stored under the
    command in any case and the other commands keep their names and
    functions.  With the options pointer set, the callback becomes the
    bound function, so that a dispatch of the command with no replacement
    runs it; with a null pointer neither map changes and nothing is written
    to the client. *)
Theorem add_bind_registers_the_callback_only_with_the_options_pointer
  (ptr_binds cmd : Z) (name short_name : string) (category : Z)
  (callback : KeyMapFunction W) (s : (Z -> option string) * Hook W) :
  Z.of_nat (String.length short_name) < 64 ->
  exists KeyMapNames' h' writes,
    add_bind ptr_binds cmd name short_name category callback s
    = Some (KeyMapNames', h', writes)
    /\ KeyMapNames' cmd = Some short_name
    /\ (forall k, k <> cmd ->
          KeyMapNames' k = fst s k
          /\ KeyMapFunctions h' k = KeyMapFunctions (snd s) k)
    /\ (forall k, ReplacementFunctions h' k = ReplacementFunctions (snd s) k)
    /\ (ptr_binds = 0 -> h' = snd s /\ writes = [])
    /\ (ptr_binds <> 0 ->
        KeyMapFunctions h' cmd = Some callback
        /\ forall isdown w,
             ReplacementFunctions (snd s) cmd = None ->
             execute_cmd h' false cmd isdown w = (false, callback isdown w)).
Proof.
  intros Hfit. unfold add_bind.
  replace (Z.of_nat (String.length short_name) >=? 64) with false
    by (symmetry; rewrite Z.geb_leb; apply Z.leb_gt; exact Hfit).
  destruct (ptr_binds =? 0) eqn:Eptr.
  - apply Z.eqb_eq in Eptr. eexists _, _, _. split; [reflexivity|].
    cbn beta. rewrite Z.eqb_refl. split; [reflexivity|]. split.
    { intros k Hk. apply Z.eqb_neq in Hk. rewrite Hk. auto. }
    split; [reflexivity|]. split; [auto|]. intros Hne. contradiction.
  - apply Z.eqb_neq in Eptr. eexists _, _, _. split; [reflexivity|].
    cbn [KeyMapFunctions ReplacementFunctions]. rewrite Z.eqb_refl.
    split; [reflexivity|]. split.
    { intros k Hk. apply Z.eqb_neq in Hk. rewrite Hk. auto. }
    split; [reflexivity|]. split; [intros E; contradiction|]. intros _.
    split; [reflexivity|]. intros isdown w Hnone.
    unfold execute_cmd. cbn [ReplacementFunctions KeyMapFunctions negb orb].
    rewrite Hnone, Z.eqb_refl. reflexivity.
Qed.

End DispatchFacts.

(** ** [read_ini] *)

Lemma read_ini_at_spec (KeyMapNames : Z -> option string) (ini : Z -> Z -> Z) (i k : Z)
  (maps : (Z -> Z) * (Z -> Z)) :
  fst (read_ini_at KeyMapNames ini i maps) k
  = (if (k =? i)
        && match KeyMapNames k with Some _ => true | None => false end
        && negb (to_int (ini k 0) =? -2)
     then to_int (ini k 0) else fst maps k)
  /\ snd (read_ini_at KeyMapNames ini i maps) k
     = (if (k =? i)
           && match KeyMapNames k with Some _ => true | None => false end
           && negb (to_int (ini k 1) =? -2)
        then to_int (ini k 1) else snd maps k).
Proof.
  unfold read_ini_at. destruct (k =? i) eqn:E.
  - apply Z.eqb_eq in E. subst k. destruct (KeyMapNames i); cbn [andb fst snd].
    + destruct (to_int (ini i 0) =? -2), (to_int (ini i 1) =? -2);
        cbn [negb fst snd]; rewrite ?Z.eqb_refl; split; reflexivity.
    + split; reflexivity.
  - destruct (KeyMapNames i); cbn [andb fst snd]; [|split; reflexivity].
    destruct (to_int (ini i 0) =? -2), (to_int (ini i 1) =? -2);
      cbn [negb fst snd]; rewrite ?E; split; reflexivity.
Qed.

Lemma read_ini_loop_spec (KeyMapNames : Z -> option string) (ini : Z -> Z -> Z)
  (k : Z) (count : nat) :
  forall (i : Z) (maps : (Z -> Z) * (Z -> Z)),
    fst (read_ini_loop count i KeyMapNames ini maps) k
    = (if (i <=? k) && (k <? i + Z.of_nat count)
          && match KeyMapNames k with Some _ => true | None => false end
          && negb (to_int (ini k 0) =? -2)
       then to_int (ini k 0) else fst maps k)
    /\ snd (read_ini_loop count i KeyMapNames ini maps) k
       = (if (i <=? k) && (k <? i + Z.of_nat count)
             && match KeyMapNames k with Some _ => true | None => false end
             && negb (to_int (ini k 1) =? -2)
          then to_int (ini k 1) else snd maps k).
Proof.
  induction count as [|count IH]; intros i maps.
  - cbn [read_ini_loop]. change (Z.of_nat 0) with 0. rewrite Z.add_0_r.
    replace ((i <=? k) && (k <? i)) with false; [split; reflexivity|].
    symmetry. apply andb_false_iff.
    destruct (Z.le_gt_cases i k) as [H|H].
    + right. apply Z.ltb_ge. exact H.
    + left. apply Z.leb_gt. exact H.
  - cbn [read_ini_loop].
    destruct (IH (i + 1) (read_ini_at KeyMapNames ini i maps)) as [IH1 IH2].
    destruct (read_ini_at_spec KeyMapNames ini i k maps) as [A1 A2].
    rewrite IH1, IH2, A1, A2.
    replace (i + 1 + Z.of_nat count) with (i + Z.of_nat (S count)) by lia.
    destruct (Z.eq_dec k i) as [->|Hne].
    + rewrite Z.eqb_refl.
      replace (i + 1 <=? i) with false by (symmetry; apply Z.leb_gt; lia).
      replace (i <=? i) with true by (symmetry; apply Z.leb_le; lia).
      replace (i <? i + Z.of_nat (S count)) with true
        by (symmetry; apply Z.ltb_lt; lia).
      cbn [andb]. split; reflexivity.
    + replace (k =? i) with false by (symmetry; apply Z.eqb_neq; exact Hne).
      cbn [andb].
      replace (i + 1 <=? k) with (i <=? k); [split; reflexivity|].
      destruct (i <=? k) eqn:E; symmetry.
      * apply Z.leb_le in E. apply Z.leb_le. lia.
      * apply Z.leb_gt in E. apply Z.leb_gt. lia.
Qed.

(** [read_ini] touches only the commands from 128 up to the size of the
    name table that have a name: such a command gets the key code read for
    it, unless that code is -2; every other entry of the two key maps,
    among them all the client's own commands below 128, is left as it was. *)
Theorem read_ini_sets_only_the_named_commands_from_128
  (size : Z) (KeyMapNames : Z -> option string) (ini : Z -> Z -> Z)
  (maps : (Z -> Z) * (Z -> Z)) (k : Z) :
  fst (read_ini size KeyMapNames ini maps) k
  = (if (128 <=? k) && (k <? size)
        && match KeyMapNames k with Some _ => true | None => false end
        && negb (to_int (ini k 0) =? -2)
     then to_int (ini k 0) else fst maps k)
  /\ snd (read_ini size KeyMapNames ini maps) k
     = (if (128 <=? k) && (k <? size)
           && match KeyMapNames k with Some _ => true | None => false end
           && negb (to_int (ini k 1) =? -2)
        then to_int (ini k 1) else snd maps k).
Proof.
  unfold read_ini.
  destruct (read_ini_loop_spec KeyMapNames ini k (Z.to_nat (size - 128)) 128 maps)
    as [H1 H2].
  rewrite H1, H2.
  replace ((128 <=? k) && (k <? 128 + Z.of_nat (Z.to_nat (size - 128))))
    with ((128 <=? k) && (k <? size)); [split; reflexivity|].
  destruct (128 <=? k) eqn:E; cbn [andb]; [|reflexivity].
  apply Z.leb_le in E.
  destruct (k <? size) eqn:F; symmetry.
  - apply Z.ltb_lt in F. apply Z.ltb_lt. lia.
  - apply Z.ltb_ge in F. apply Z.ltb_ge. lia.
Qed.

(** ** Containers *)

Lemma pack_containers_in (slots : list Z) (InventoryPackItem : Z -> option EQITEMINFO)
  (c : EQITEMINFO) (i : Z) :
  In (c, i) (pack_containers slots InventoryPackItem)
  <-> In i slots /\ InventoryPackItem i = Some c
      /\ Type_ c = 1 /\ Container_Capacity c > 0.
Proof.
  induction slots as [|j slots IH]; cbn [pack_containers In].
  - tauto.
  - destruct (InventoryPackItem j) as [item|] eqn:Ej.
    + destruct ((Type_ item =? 1) && (Container_Capacity item >? 0)) eqn:Ec.
      * apply andb_true_iff in Ec. destruct Ec as [E1 E2].
        apply Z.eqb_eq in E1. rewrite Z.gtb_ltb in E2. apply Z.ltb_lt in E2.
        cbn [In]. rewrite IH. split.
        -- intros [E|H]; [|tauto]. injection E as <- <-.
           split; [left; reflexivity|]. split; [exact Ej|]. split; [exact E1|lia].
        -- intros ([<-|Hin] & Hp & Ht & Hcap); [|tauto].
           left. congruence.
      * rewrite IH. split; [tauto|].
        intros ([<-|Hin] & Hp & Ht & Hcap); [|tauto].
        exfalso. assert (item = c) by congruence. subst item.
        apply andb_false_iff in Ec. destruct Ec as [Ec|Ec].
        -- apply Z.eqb_neq in Ec. contradiction.
        -- rewrite Z.gtb_ltb in Ec. apply Z.ltb_ge in Ec. lia.
    + rewrite IH. split; [tauto|].
      intros ([<-|Hin] & Hp & Ht & Hcap); [congruence|tauto].
Qed.

Lemma filter_keeps_all {A : Type} (f : A -> bool) (l : list A) :
  (List.length (filter f l) <= List.length l)%nat
  /\ (List.length (filter f l) = List.length l <-> forall x, In x l -> f x = true).
Proof.
  induction l as [|a l [IHle IHeq]]; cbn [filter List.length In].
  - split; [lia|]. split; [intros _ x []|reflexivity].
  - destruct (f a) eqn:E; cbn [List.length].
    + split; [lia|]. split.
      * intros H x [<-|Hin]; [exact E|]. apply IHeq; [lia|exact Hin].
      * intros H. f_equal. apply IHeq. intros x Hin. apply H. right. exact Hin.
    + split; [lia|]. split; [lia|].
      intros H. rewrite (H a (or_introl eq_refl)) in E. discriminate E.
Qed.

Lemma slot_in_pack (i : Z) : In i [0; 1; 2; 3; 4; 5; 6; 7] <-> 0 <= i <= 7.
Proof. cbn [In]. lia. Qed.

(** The container key, pressed outside the chat input, closes all
    containers in one call exactly when every container of the eight pack
    slots is open (also when there is none), and otherwise opens exactly
    the containers that are closed, each under slot number 22 plus its pack
    slot; items that are not containers are never opened. *)
Theorem container_key_opens_the_closed_ones_or_closes_all
  (InventoryPackItem : Z -> option EQITEMINFO) :
  let calls := toggle_all_containers true false InventoryPackItem in
  (In CloseAllContainers calls
   <-> forall i c, 0 <= i <= 7 -> InventoryPackItem i = Some c ->
                   Type_ c = 1 -> Container_Capacity c > 0 ->
                   Container_IsOpen c <> 0)
  /\ (In CloseAllContainers calls -> calls = [CloseAllContainers])
  /\ (forall c slot,
        In (OpenContainer c slot) calls
        <-> exists i, 0 <= i <= 7 /\ slot = 22 + i
                      /\ InventoryPackItem i = Some c
                      /\ Type_ c = 1 /\ Container_Capacity c > 0
                      /\ Container_IsOpen c = 0).
Proof.
  intros calls. subst calls. unfold toggle_all_containers. cbn [andb negb].
  set (containers := pack_containers [0; 1; 2; 3; 4; 5; 6; 7] InventoryPackItem).
  assert (Hin : forall c i, In (c, i) containers
                  <-> 0 <= i <= 7 /\ InventoryPackItem i = Some c
                      /\ Type_ c = 1 /\ Container_Capacity c > 0).
  { intros c i. subst containers. rewrite pack_containers_in, slot_in_pack. tauto. }
  destruct (filter_keeps_all
              (fun ci : EQITEMINFO * Z => truthy (Container_IsOpen (fst ci))) containers)
    as [_ Hall].
  assert (Hopen : forall c : EQITEMINFO,
            truthy (Container_IsOpen c) = true <-> Container_IsOpen c <> 0).
  { intros c. unfold truthy. rewrite negb_true_iff, Z.eqb_neq. tauto. }
  destruct (Z.of_nat (List.length (filter _ containers))
            =? Z.of_nat (List.length containers)) eqn:E.
  - apply Z.eqb_eq, Nat2Z.inj in E. pose proof (proj1 Hall E) as Hevery.
    split; [|split].
    + split; [|intros _; left; reflexivity].
      intros _ i c Hi Hp Ht Hcap.
      apply Hopen. apply (Hevery (c, i)). apply Hin. auto.
    + reflexivity.
    + intros c slot. split.
      * intros [H|[]]. discriminate H.
      * intros (i & Hi & _ & Hp & Ht & Hcap & Hclosed). exfalso.
        assert (Ho : truthy (Container_IsOpen c) = true).
        { apply (Hevery (c, i)). apply Hin. auto. }
        apply Hopen in Ho. contradiction.
  - apply Z.eqb_neq in E.
    assert (Hnoclose : ~ In CloseAllContainers
                         (map (fun ci : EQITEMINFO * Z => OpenContainer (fst ci) (22 + snd ci))
                            (filter (fun ci => negb (truthy (Container_IsOpen (fst ci))))
                               containers))).
    { intros H. apply in_map_iff in H. destruct H as (x & Hx & _). discriminate Hx. }
    split; [|split].
    + split; [intros H; contradiction|].
      intros Hevery. exfalso. apply E. f_equal. apply Hall.
      intros [c i] Hci. cbn [fst]. apply Hopen.
      apply Hin in Hci. destruct Hci as (Hi & Hp & Ht & Hcap).
      apply (Hevery i c); assumption.
    + intros H. contradiction.
    + intros c slot. rewrite in_map_iff. split.
      * intros ([c' i] & Hx & Hf). cbn [fst snd] in Hx. injection Hx as -> <-.
        apply filter_In in Hf. destruct Hf as [Hci Hclosed]. cbn [fst] in Hclosed.
        apply Hin in Hci. destruct Hci as (Hi & Hp & Ht & Hcap).
        exists i. repeat split; try assumption; try lia.
        unfold truthy in Hclosed. rewrite negb_involutive in Hclosed.
        apply Z.eqb_eq. exact Hclosed.
      * intros (i & Hi & -> & Hp & Ht & Hcap & Hclosed).
        exists (c, i). split; [reflexivity|].
        apply filter_In. split; [apply Hin; auto|].
        cbn [fst]. unfold truthy. rewrite Hclosed. reflexivity.
Qed.

(** ** Slow turn *)

(** The slow-turn keys 224 to 228: outside the chat input a press writes
    the speed into both turn-speed bytes and a release always leaves the
    first byte at 12; when the client's own turn command leaves the two
    bytes alone and the speed is not 12, a press followed by a release ends
    with both bytes at 12.  Inside the chat input the key does nothing. *)
Theorem slow_turn_release_restores_the_turn_speed
  (speed : Z) (game_execute_cmd : bool -> (Z -> Z) -> (Z -> Z)) (mem : Z -> Z) :
  (let pressed := slow_turn_left speed game_execute_cmd true false mem in
   pressed turn_speed_address = speed mod 256
   /\ pressed turn_speed_address_2 = speed mod 256)
  /\ slow_turn_left speed game_execute_cmd false false mem turn_speed_address = 12
  /\ (forall key_down, slow_turn_left speed game_execute_cmd key_down true mem = mem)
  /\ (speed mod 256 <> 12 ->
      (forall key_down mem0,
         game_execute_cmd key_down mem0 turn_speed_address = mem0 turn_speed_address
         /\ game_execute_cmd key_down mem0 turn_speed_address_2
            = mem0 turn_speed_address_2) ->
      let released :=
        slow_turn_left speed game_execute_cmd false false
          (slow_turn_left speed game_execute_cmd true false mem) in
      released turn_speed_address = 12 /\ released turn_speed_address_2 = 12).
Proof.
  unfold slow_turn_left, write_byte, turn_speed_address, turn_speed_address_2.
  cbn [negb]. split; [|split; [|split]].
  - cbn. split; reflexivity.
  - destruct (game_execute_cmd false mem 5502808 =? 12) eqn:E; cbn [negb].
    + apply Z.eqb_eq. exact E.
    + reflexivity.
  - intros key_down. reflexivity.
  - intros Hspeed Hkeeps.
    set (pressed := fun a : Z =>
                      if a =? 5502814 then speed mod 256
                      else if a =? 5502808 then speed mod 256
                           else game_execute_cmd true mem a).
    destruct (Hkeeps false pressed) as [K1 K2].
    unfold turn_speed_address in K1. 
    assert (P1 : pressed 5502808 = speed mod 256) by reflexivity.
    replace (game_execute_cmd false pressed 5502808 =? 12) with false
      by (symmetry; apply Z.eqb_neq; rewrite K1, P1; exact Hspeed).
    cbn. split; reflexivity.
Qed.

End BindsFacts.

(** * Worked instances of the properties above *)

Lemma advancing_ticks_cycle_through_the_songs_witness :
  let m := {| songs := [2; 4; 6]; current_index := -1; retry_count := 0 |} in
  let st := Some {| casting_visible_timestamp := 100; start_of_cast_timestamp := 100 |} in
  let gs := [bard_game 5000; bard_game 6000; bard_game 7000; bard_game 8000] in
  songs (fst (@ticks classic gs (m, st))) = [2; 4; 6]
  /\ current_index (fst (@ticks classic gs (m, st))) = (-1 + 4) mod 3.
Proof.
  apply (@advancing_ticks_cycle_through_the_songs classic
           [bard_game 5000; bard_game 6000; bard_game 7000; bard_game 8000]
           {| songs := [2; 4; 6]; current_index := -1; retry_count := 0 |}
           (Some {| casting_visible_timestamp := 100; start_of_cast_timestamp := 100 |})).
  - cbn. discriminate.
  - unfold size, INT_MAX. cbn. lia.
  - unfold size. cbn. lia.
  - discriminate.
  - vm_compute. repeat split; reflexivity.
Defined.

Lemma idle_melody_ignores_ticks_and_stops_witness :
  (forall g, @tick classic g None idle = (idle, None, []))
  /\ (forall reason, handle_stop_cast_callback reason idle = (idle, []))
  /\ (forall es, @run classic es (idle, None) = (idle, None)).
Proof.
  apply (@idle_melody_ignores_ticks_and_stops classic idle None). reflexivity.
Defined.

Lemma tick_ends_exactly_when_it_must_witness :
  @tick classic (sample_game bard 110 false true 0 5000) None
    {| songs := [2; 4]; current_index := 1; retry_count := 0 |}
  = ({| songs := []; current_index := -1; retry_count := 0 |}, None,
     [print_chat USERCOLOR_SPELL_FAILURE "Your melody has ended." []]).
Proof.
  apply (@tick_ends_exactly_when_it_must classic (sample_game bard 110 false true 0 5000)
           None {| songs := [2; 4]; current_index := 1; retry_count := 0 |}).
  - cbn. discriminate.
  - do 3 right. left. exists {| StandingState := 110; ActorInfo := None |}.
    split; reflexivity.
Defined.

Lemma tick_defers_without_touching_the_melody_witness :
  let m := {| songs := [2; 4]; current_index := 1; retry_count := 2 |} in
  let st := Some {| casting_visible_timestamp := 100; start_of_cast_timestamp := 100 |} in
  @tick classic (sample_game bard 100 false false 0 5000) st m = (m, st, []).
Proof.
  apply (@tick_defers_without_touching_the_melody classic
           (sample_game bard 100 false false 0 5000)
           (Some {| casting_visible_timestamp := 100; start_of_cast_timestamp := 100 |})
           {| songs := [2; 4]; current_index := 1; retry_count := 2 |}
           {| StandingState := 100; ActorInfo := None |} bard).
  - cbn. discriminate.
  - reflexivity.
  - reflexivity.
  - right. right. left. reflexivity.
Defined.

Lemma missing_target_ticks_are_bounded_witness :
  let m := {| songs := [2; 4]; current_index := -1; retry_count := 0 |} in
  let st := Some {| casting_visible_timestamp := 100; start_of_cast_timestamp := 100 |} in
  let gs := repeat (sample_game bard 100 false true 5 5000) 16 in
  0 + Z.of_nat (List.length gs) <= 16
  /\ retry_count (fst (@ticks classic gs (m, st))) = 0 + Z.of_nat (List.length gs)
  /\ songs (fst (@ticks classic gs (m, st))) = [2; 4]
  /\ (0 + Z.of_nat (List.length gs) = 16 ->
      forall g, songs (fst (fst (@tick classic g (snd (@ticks classic gs (m, st)))
                                   (fst (@ticks classic gs (m, st)))))) = []).
Proof.
  apply (@missing_target_ticks_are_bounded classic
           (repeat (sample_game bard 100 false true 5 5000) 16)
           {| songs := [2; 4]; current_index := -1; retry_count := 0 |}
           (Some {| casting_visible_timestamp := 100; start_of_cast_timestamp := 100 |})).
  - cbn. lia.
  - discriminate.
  - vm_compute. repeat split; reflexivity.
Defined.

Lemma empty_gems_are_skipped_for_free_witness :
  let m := {| songs := [2; 4]; current_index := 0; retry_count := 3 |} in
  let st := Some {| casting_visible_timestamp := 100; start_of_cast_timestamp := 100 |} in
  let gs := repeat (sample_game bard_without_songs 100 false true 0 5000) 20 in
  retry_count (fst (@ticks classic gs (m, st))) = 3
  /\ songs (fst (@ticks classic gs (m, st))) = [2; 4].
Proof.
  apply (@empty_gems_are_skipped_for_free classic
           (repeat (sample_game bard_without_songs 100 false true 0 5000) 20)
           {| songs := [2; 4]; current_index := 0; retry_count := 3 |}
           (Some {| casting_visible_timestamp := 100; start_of_cast_timestamp := 100 |})).
  vm_compute. repeat split; reflexivity.
Defined.

Lemma parse_songs_reads_one_based_gems_witness :
  @parse_songs classic ["1"; "3"; "8"] [] = Some ([] ++ map (fun v => v - 1) [1; 3; 8]).
Proof.
  apply (@parse_songs_reads_one_based_gems classic ["1"; "3"; "8"] []).
  - intros a v [<-|[<-|[<-|[]]]] E; vm_compute in E; injection E as <-;
      unfold INT_MIN, INT_MAX; lia.
  - exists [1; 3; 8]. split; reflexivity.
Defined.

Lemma check_gems_reports_the_first_bad_gem_witness :
  @check_gems classic bard ([0; 3] ++ 8 :: [-1])
  = Some (print_chat USERCOLOR_SPELL_FAILURE "Error: Invalid spell gem %i" [8 + 1]).
Proof.
  apply (@check_gems_reports_the_first_bad_gem classic bard [0; 3] 8 [-1]).
  - intros gem [<-|[<-|[]]]; cbn; split; lia || discriminate.
  - right. left. cbn. lia.
  - unfold INT_MIN, INT_MAX. lia.
Defined.

Lemma repeated_stops_rewind_repeatedly_witness :
  let m := {| songs := [1; 3; 5]; current_index := 0; retry_count := 0 |} in
  current_index (interrupted 10 m) = (0 - (10 - skipped_rewinds 0 10)) mod 3
  /\ retry_count (interrupted 10 m) = 0 + 10.
Proof.
  apply (repeated_stops_rewind_repeatedly 10
           {| songs := [1; 3; 5]; current_index := 0; retry_count := 0 |}).
  - cbn. discriminate.
  - unfold size, INT_MAX. cbn. lia.
  - unfold size. cbn. lia.
  - cbn. lia.
  - unfold INT_MAX. cbn. lia.
Defined.

Lemma retry_count_resets_a_second_after_the_cast_witness :
  let m := {| songs := [2; 4]; current_index := 0; retry_count := 7 |} in
  let st := Some {| casting_visible_timestamp := 100; start_of_cast_timestamp := 100 |} in
  retry_count
    (fst (fst (@tick classic (bard_game_casting 6500)
                 (snd (fst (@tick classic (bard_game 5000) st m)))
                 (fst (fst (@tick classic (bard_game 5000) st m))))))
  = if to_ulonglong (6500 - 5000) >? 1000 then 0 else 7.
Proof.
  apply (@retry_count_resets_a_second_after_the_cast classic
           (bard_game 5000) (bard_game_casting 6500)
           (Some {| casting_visible_timestamp := 100; start_of_cast_timestamp := 100 |})
           {| songs := [2; 4]; current_index := 0; retry_count := 7 |}).
  - reflexivity.
  - reflexivity.
Defined.

Lemma no_cast_within_150_ms_of_the_casting_window_witness :
  let m := {| songs := [2; 4]; current_index := 0; retry_count := 0 |} in
  let st := Some {| casting_visible_timestamp := 100; start_of_cast_timestamp := 100 |} in
  let m1 := fst (fst (@tick classic (bard_game_casting 5000) st m)) in
  let st1 := snd (fst (@tick classic (bard_game_casting 5000) st m)) in
  never_casts (snd (@tick classic (bard_game 5100) st1 m1))
  /\ (@tick_keeps_going classic (bard_game 5100) m1 <> None ->
      @tick classic (bard_game 5100) st1 m1 = (m1, st1, [])).
Proof.
  apply (@no_cast_within_150_ms_of_the_casting_window classic
           (bard_game_casting 5000) (bard_game 5100)
           (Some {| casting_visible_timestamp := 100; start_of_cast_timestamp := 100 |})
           {| songs := [2; 4]; current_index := 0; retry_count := 0 |}).
  - reflexivity.
  - reflexivity.
  - cbn. lia.
Defined.

Lemma last_targets_are_distinct_unless_cleared_witness :
  let a := {| Binds.SpawnId := 7 |} in
  let b := {| Binds.SpawnId := 9 |} in
  let es := [Binds.te_select (Some a); Binds.te_main_loop; Binds.te_select (Some b);
             Binds.te_main_loop; Binds.te_on_zone] in
  snd (Binds.target_run (fun _ => None) es (None, (0, 0))) = (0, 0).
Proof.
  apply (BindsFacts.last_targets_are_distinct_unless_cleared (fun _ => None)
           [Binds.te_select (Some {| Binds.SpawnId := 7 |}); Binds.te_main_loop;
            Binds.te_select (Some {| Binds.SpawnId := 9 |});
            Binds.te_main_loop; Binds.te_on_zone] (None, (0, 0))).
  - reflexivity.
  - reflexivity.
Defined.

Lemma toggling_twice_returns_to_the_target_witness :
  let a := {| Binds.SpawnId := 7 |} in
  let b := {| Binds.SpawnId := 9 |} in
  let lookup := fun id => if id =? 0 then None else Some {| Binds.SpawnId := id |} in
  let s := (Some b, (9, 7)) in
  Binds.target_run lookup [Binds.te_toggle_key; Binds.te_main_loop] s = (Some a, (7, 9))
  /\ Binds.target_run lookup
       [Binds.te_toggle_key; Binds.te_main_loop; Binds.te_toggle_key; Binds.te_main_loop] s
     = s
  /\ Binds.target_run lookup [Binds.te_toggle_key; Binds.te_toggle_key] s
     = (Some a, (9, 7)).
Proof.
  apply (BindsFacts.toggling_twice_returns_to_the_target
           (fun id => if id =? 0 then None else Some {| Binds.SpawnId := id |})
           {| Binds.SpawnId := 7 |} {| Binds.SpawnId := 9 |}).
  - cbn. discriminate.
  - cbn. discriminate.
  - cbn. discriminate.
  - reflexivity.
  - reflexivity.
Defined.

Lemma toggle_only_selects_a_recorded_spawn_witness :
  let lookup := fun id => if id =? 0 then None else Some {| Binds.SpawnId := id |} in
  true = true /\ false = false
  /\ exists id,
       id <> 0 /\ lookup id = Some {| Binds.SpawnId := 7 |}
       /\ ((Some {| Binds.SpawnId := 9 |} = None /\ id = fst (9, 7))
           \/ (exists target, Some {| Binds.SpawnId := 9 |} = Some target
                 /\ Binds.SpawnId target = fst (9, 7) /\ id = snd (9, 7))).
Proof.
  apply (BindsFacts.toggle_only_selects_a_recorded_spawn true false
           (Some {| Binds.SpawnId := 9 |})
           (fun id => if id =? 0 then None else Some {| Binds.SpawnId := id |})
           (9, 7) {| Binds.SpawnId := 7 |}).
  reflexivity.
Defined.

Lemma execute_cmd_falls_through_to_the_bound_function_witness :
  let h := {| Binds.ReplacementFunctions :=
                fun k => if k =? 6 then Some [fun (_ : bool) (w : list Z) => (false, 1 :: w)]
                         else None;
              Binds.KeyMapFunctions :=
                fun k => if k =? 6 then Some (fun (_ : bool) (w : list Z) => 2 :: w)
                         else None |} in
  Binds.execute_cmd h false 6 true [] = (false, [2; 1]).
Proof.
  apply (BindsFacts.execute_cmd_falls_through_to_the_bound_function (list Z)
           {| Binds.ReplacementFunctions :=
                fun k => if k =? 6 then Some [fun (_ : bool) (w : list Z) => (false, 1 :: w)]
                         else None;
              Binds.KeyMapFunctions :=
                fun k => if k =? 6 then Some (fun (_ : bool) (w : list Z) => 2 :: w)
                         else None |}
           false 6 true [] [1]).
  reflexivity.
Defined.

Lemma add_bind_registers_the_callback_only_with_the_options_pointer_witness :
  let s := (fun _ : Z => None,
            {| Binds.ReplacementFunctions := fun _ => None;
               Binds.KeyMapFunctions := fun _ => @None (Binds.KeyMapFunction (list Z)) |}) in
  exists KeyMapNames' h' writes,
    Binds.add_bind 4096 216 "Toggle last two targets" "ToggleLastTwo" 2
      (fun (_ : bool) (w : list Z) => 216 :: w) s
    = Some (KeyMapNames', h', writes)
    /\ KeyMapNames' 216 = Some "ToggleLastTwo"
    /\ (forall k, k <> 216 ->
          KeyMapNames' k = fst s k
          /\ Binds.KeyMapFunctions h' k = Binds.KeyMapFunctions (snd s) k)
    /\ (forall k, Binds.ReplacementFunctions h' k = Binds.ReplacementFunctions (snd s) k)
    /\ (4096 = 0 -> h' = snd s /\ writes = [])
    /\ (4096 <> 0 ->
        Binds.KeyMapFunctions h' 216 = Some (fun (_ : bool) (w : list Z) => 216 :: w)
        /\ forall isdown w,
             Binds.ReplacementFunctions (snd s) 216 = None ->
             Binds.execute_cmd h' false 216 isdown w = (false, 216 :: w)).
Proof.
  apply (BindsFacts.add_bind_registers_the_callback_only_with_the_options_pointer
           (list Z) 4096 216 "Toggle last two targets" "ToggleLastTwo" 2
           (fun (_ : bool) (w : list Z) => 216 :: w)
           (fun _ : Z => None,
            {| Binds.ReplacementFunctions := fun _ => None;
               Binds.KeyMapFunctions := fun _ => @None (Binds.KeyMapFunction (list Z)) |})).
  cbn. lia.
Defined.
